(** * env_archaeologist.py: a shallow embedding and its verified properties

    The program walks a directory, applies four regular expressions to the
    text of every candidate file, collects the captured names, compares them
    with [os.environ] and prints a report.

    Text is modelled as Python sees it: a [str] is a sequence of Unicode code
    points, a file is a sequence of bytes decoded as UTF-8 with
    [errors='ignore'].  Python sets are [gset]s, the per-file dict a [gmap].
    Paths follow [pathlib.PurePosixPath] as of Python 3.12.  The calls on
    the file system return what they return there or raise what they raise:
    [exists()] and [is_file()] swallow four errors of [stat] and raise the
    others, [open] raises, and an exception that nobody catches ends the
    process with status 1 and a traceback on standard error. *)

From Stdlib Require Import ZArith List String Ascii DecimalString Lia.
From stdpp Require Import base decidable option list sets gmap sorting.

Import ListNotations.
Local Open Scope Z_scope.

(* ===================================================================== *)
(** * Text *)
(* ===================================================================== *)

(** A Python [str]: the list of its code points. *)
Abbreviation str := (list Z).

(** An ASCII literal of the source as a [str]. *)
Definition lit (s : string) : str :=
  map (fun a => Z.of_N (N_of_ascii a)) (list_ascii_of_string s).

(** The double quote, written by its code point. *)
Definition dq : Z := 34.
(** The single quote. *)
Definition sq : Z := 39.

Module Utf8.

(** [b] is a continuation byte 10xxxxxx. *)
Definition cont (b : Z) : bool := (0x80 <=? b) && (b <=? 0xBF).

Definition between (lo hi b : Z) : bool := (lo <=? b) && (b <=? hi).

Definition low6 (b : Z) : Z := Z.land b 0x3F.

(** Well-formed two, three and four byte sequences (Unicode table 3-7):
    no overlong forms, no surrogates, nothing above U+10FFFF. *)
Definition seq2 (b0 b1 : Z) : option Z :=
  if between 0xC2 0xDF b0 && cont b1
  then Some (Z.lor (Z.shiftl (Z.land b0 0x1F) 6) (low6 b1))
  else None.

Definition second_of3 (b0 b1 : Z) : bool :=
  if b0 =? 0xE0 then between 0xA0 0xBF b1
  else if b0 =? 0xED then between 0x80 0x9F b1
  else between 0xE1 0xEF b0 && cont b1.

Definition seq3 (b0 b1 b2 : Z) : option Z :=
  if second_of3 b0 b1 && cont b2
  then Some (Z.lor (Z.shiftl (Z.land b0 0x0F) 12)
               (Z.lor (Z.shiftl (low6 b1) 6) (low6 b2)))
  else None.

Definition second_of4 (b0 b1 : Z) : bool :=
  if b0 =? 0xF0 then between 0x90 0xBF b1
  else if b0 =? 0xF4 then between 0x80 0x8F b1
  else between 0xF1 0xF3 b0 && cont b1.

Definition seq4 (b0 b1 b2 b3 : Z) : option Z :=
  if second_of4 b0 b1 && cont b2 && cont b3
  then Some (Z.lor (Z.shiftl (Z.land b0 0x07) 18)
               (Z.lor (Z.shiftl (low6 b1) 12)
                  (Z.lor (Z.shiftl (low6 b2) 6) (low6 b3))))
  else None.

(** [bytes.decode('utf-8', errors='ignore')]: a well-formed sequence
    gives its code point; at an ill-formed one the decoder drops the
    offending bytes and goes on.  The bytes CPython drops after an
    ill-formed lead byte are continuation bytes, which cannot start a
    sequence, so dropping the lead byte alone and resuming at the next
    byte gives the same text. *)
Fixpoint decode_ignore (bs : list Z) : str :=
  match bs with
  | [] => []
  | b0 :: r0 =>
    if between 0 0x7F b0 then b0 :: decode_ignore r0 else
    match r0 with
    | [] => []
    | b1 :: r1 =>
      match seq2 b0 b1 with
      | Some c => c :: decode_ignore r1
      | None =>
        match r1 with
        | [] => decode_ignore r0
        | b2 :: r2 =>
          match seq3 b0 b1 b2 with
          | Some c => c :: decode_ignore r2
          | None =>
            match r2 with
            | [] => decode_ignore r0
            | b3 :: r3 =>
              match seq4 b0 b1 b2 b3 with
              | Some c => c :: decode_ignore r3
              | None => decode_ignore r0
              end
            end
          end
        end
      end
    end
  end.

(** [bytes.decode('utf-8')] with the default [errors='strict'];
    [None] stands for UnicodeDecodeError. *)
Fixpoint decode_strict (bs : list Z) : option str :=
  match bs with
  | [] => Some []
  | b0 :: r0 =>
    if between 0 0x7F b0 then cons b0 <$> decode_strict r0 else
    match r0 with
    | [] => None
    | b1 :: r1 =>
      match seq2 b0 b1 with
      | Some c => cons c <$> decode_strict r1
      | None =>
        match r1 with
        | [] => None
        | b2 :: r2 =>
          match seq3 b0 b1 b2 with
          | Some c => cons c <$> decode_strict r2
          | None =>
            match r2 with
            | [] => None
            | b3 :: r3 =>
              match seq4 b0 b1 b2 b3 with
              | Some c => cons c <$> decode_strict r3
              | None => None
              end
            end
          end
        end
      end
    end
  end.

(** A byte that begins no sequence: a continuation byte, C0, C1, or F5
    and above. *)
Definition never_starts (b : Z) : bool :=
  negb (between 0 0x7F b) && negb (between 0xC2 0xF4 b).

End Utf8.

(** Text mode with the default [newline=None]: on reading, the line endings
    CR LF and CR become LF. *)
Fixpoint universal_newlines (s : str) : str :=
  match s with
  | [] => []
  | c :: r =>
    if c =? 13 then
      match r with
      | d :: r' => if d =? 10 then 10 :: universal_newlines r'
                   else 10 :: universal_newlines r
      | [] => [10]
      end
    else c :: universal_newlines r
  end.

(* ===================================================================== *)
(** * Regular expressions *)
(* ===================================================================== *)

Module Re.

(** Simple lower-case mapping of [_sre.unicode_tolower], on the code
    points that matter for patterns made of ASCII letters: the only code
    points that lower-case to an ASCII letter are A-Z, U+0130 (to i) and
    U+212A (to k).  Every other code point is left alone here; its real
    lower case is never an ASCII letter, U+0131 or U+017F. *)
Definition lower (c : Z) : Z :=
  if (65 <=? c) && (c <=? 90) then c + 32
  else if c =? 0x130 then 0x69
  else if c =? 0x212A then 0x6B
  else c.

(** [sre_compile._equivalences], the classes that meet ASCII: i with
    dotless i (U+0131), s with long s (U+017F). *)
Definition fixes (c : Z) : list Z :=
  if c =? 0x69 then [0x131]
  else if c =? 0x73 then [0x17F]
  else [].

(** Does [ch] match the pattern character [c] under [re.IGNORECASE]? *)
Definition ci_eq (c ch : Z) : bool :=
  let lo := lower c in
  existsb (Z.eqb (lower ch)) (lo :: fixes lo).

(** The code points lo, lo+1, ..., hi of a range [lo-hi]. *)
Definition range (lo hi : Z) : list Z :=
  map (fun i => lo + Z.of_nat i) (seq 0 (Z.to_nat (hi - lo + 1))).

(** An atom consumes one character. *)
Inductive atom :=
| Chr (c : Z)                                (* a literal, possibly escaped *)
| Cls (negate : bool) (rs : list (Z * Z)).   (* [...] or [^...]; ranges *)

Definition in_ranges (rs : list (Z * Z)) (ch : Z) : bool :=
  existsb (fun r => existsb (fun c => ci_eq c ch) (range (fst r) (snd r))) rs.

Definition atom_match (a : atom) (ch : Z) : bool :=
  match a with
  | Chr c => ci_eq c ch
  | Cls negate rs => xorb negate (in_ranges rs ch)
  end.

(** Quantified atoms; all quantifiers are greedy. *)
Inductive piece :=
| One (a : atom)       (* a  *)
| Opt (a : atom)       (* a? *)
| Star (a : atom)      (* a* *)
| Plus (a : atom).     (* a+ *)

(** A pattern with exactly one capture group. *)
Record pattern := Pattern {
  before : list piece;
  group1 : list piece;
  after : list piece }.

Section Match.
Context {R : Type}.

(** Greedy repetition with backtracking: take the character if
    possible and retry with one fewer on failure. *)
Fixpoint star (a : atom) (k : str -> option R) (s : str) : option R :=
  match s with
  | ch :: s' =>
    if atom_match a ch then
      match star a k s' with
      | Some r => Some r
      | None => k s
      end
    else k s
  | [] => k s
  end.

Fixpoint pieces (ps : list piece) (s : str) (k : str -> option R)
  : option R :=
  match ps with
  | [] => k s
  | One a :: ps' =>
    match s with
    | ch :: s' => if atom_match a ch then pieces ps' s' k else None
    | [] => None
    end
  | Opt a :: ps' =>
    match s with
    | ch :: s' =>
      if atom_match a ch then
        match pieces ps' s' k with
        | Some r => Some r
        | None => pieces ps' s k
        end
      else pieces ps' s k
    | [] => pieces ps' s k
    end
  | Star a :: ps' => star a (fun s' => pieces ps' s' k) s
  | Plus a :: ps' =>
    match s with
    | ch :: s' =>
      if atom_match a ch then star a (fun s'' => pieces ps' s'' k) s'
      else None
    | [] => None
    end
  end.
End Match.

(** The least number of characters a sequence of pieces consumes. *)
Fixpoint min_length (ps : list piece) : nat :=
  match ps with
  | [] => 0
  | (One _ | Plus _) :: ps' => S (min_length ps')
  | (Opt _ | Star _) :: ps' => min_length ps'
  end.

(** The text between two positions given by the suffixes starting there. *)
Definition slice (from to : str) : str :=
  firstn (length from - length to) from.

(** Match at the start of [s]: the text of group 1 and the rest of the
    input after the whole match. *)
Definition match_at (p : pattern) (s : str) : option (str * str) :=
  pieces (before p) s (fun s1 =>
  pieces (group1 p) s1 (fun s2 =>
  pieces (after p) s2 (fun s3 => Some (slice s1 s2, s3)))).

(** Scan left to right; [skip] counts the characters of the last match
    still to step over, so matches do not overlap.  The patterns of the
    program match no empty text, so every match moves the scan on and
    nothing can match at the end of the input. *)
Fixpoint findall_from (p : pattern) (skip : nat) (s : str) : list str :=
  match s with
  | [] => []
  | _ :: s' =>
    match skip with
    | S n => findall_from p n s'
    | O =>
      match match_at p s with
      | Some (g, rest) =>
        g :: findall_from p (length s - length rest - 1) s'
      | None => findall_from p 0 s'
      end
    end
  end.

(** [re.findall(pattern, content, re.IGNORECASE)] for a pattern with one
    group: the list of the group's texts. *)
Definition findall (p : pattern) (content : str) : list str :=
  findall_from p 0 content.

End Re.

Import Re.

(** Pattern text as pieces. *)
Definition chars (s : string) : list piece := map (fun c => One (Chr c)) (lit s).

(** The class of the two quote characters, and its complement. *)
Definition quote : atom := Cls false [(dq, dq); (sq, sq)].
Definition not_quote : atom := Cls true [(dq, dq); (sq, sq)].
(** [A-Z_] and [A-Z0-9_] *)
Definition name_start : atom := Cls false [(65, 90); (95, 95)].
Definition name_char : atom := Cls false [(65, 90); (48, 57); (95, 95)].

(** os\.getenv\([Q']([^Q']+)[Q']\), with Q for the double quote. *)
Definition pat_getenv : pattern :=
  Pattern (chars "os.getenv(" ++ [One quote])
          [Plus not_quote]
          [One quote; One (Chr 41)].

(** os\.environ\[?[Q']([^Q']+)[Q']\]?, with Q for the double quote. *)
Definition pat_environ : pattern :=
  Pattern (chars "os.environ" ++ [Opt (Chr 91); One quote])
          [Plus not_quote]
          [One quote; Opt (Chr 93)].

(** \$\{?(NAME)\}? where NAME is [A-Z_] followed by any number of
    [A-Z0-9_]. *)
Definition pat_shell : pattern :=
  Pattern [One (Chr 36); Opt (Chr 123)]
          [One name_start; Star name_char]
          [Opt (Chr 125)].

(** process\.env\.(NAME), with the same NAME. *)
Definition pat_node : pattern :=
  Pattern (chars "process.env.")
          [One name_start; Star name_char]
          [].

Definition ENV_PATTERNS : list pattern :=
  [pat_getenv; pat_environ; pat_shell; pat_node].

(** The loop of [find_env_vars_in_file] over the text already read. *)
Definition extract_variables (content : str) : gset str :=
  fold_left (fun found_vars p => found_vars ∪ list_to_set (findall p content))
            ENV_PATTERNS ∅.

(* ===================================================================== *)
(** * Text utilities of the program *)
(* ===================================================================== *)

Fixpoint starts_with (p s : str) : bool :=
  match p, s with
  | [], _ => true
  | _ :: _, [] => false
  | a :: p', b :: s' => (a =? b) && starts_with p' s'
  end.

(** [needle in hay] on Python strings. *)
Fixpoint contains (needle hay : str) : bool :=
  starts_with needle hay ||
  match hay with
  | [] => false
  | _ :: hay' => contains needle hay'
  end.

(** [sep.join(xs)] *)
Fixpoint join (sep : str) (xs : list str) : str :=
  match xs with
  | [] => []
  | x :: r => match r with [] => x | _ :: _ => x ++ sep ++ join sep r end
  end.

(** [s.split(sep)] for a one-character separator. *)
Fixpoint split_on (sep : Z) (s : str) : list str :=
  match s with
  | [] => [[]]
  | c :: r =>
    if c =? sep then [] :: split_on sep r
    else match split_on sep r with
         | x :: xs => (c :: x) :: xs
         | [] => [[c]]
         end
  end.

(** [s.rfind(c)]: the index of the last [c], if any. *)
Fixpoint rfind (c : Z) (s : str) : option nat :=
  match s with
  | [] => None
  | x :: r =>
    match rfind c r with
    | Some i => Some (S i)
    | None => if x =? c then Some O else None
    end
  end.

(** [str(n)] for a length. *)
Definition str_of_nat (n : nat) : str := lit (NilZero.string_of_uint (Nat.to_uint n)).

(** Order of Python strings: lexicographic on code points. *)
Fixpoint str_leb (a b : str) : bool :=
  match a, b with
  | [], _ => true
  | _ :: _, [] => false
  | x :: a', y :: b' => (x <? y) || ((x =? y) && str_leb a' b')
  end.

Definition str_le (a b : str) : Prop := str_leb a b = true.

#[global] Instance str_le_dec a b : Decision (str_le a b).
Proof. unfold str_le. apply _. Defined.

(** [sorted] on a list of strings. *)
Definition sorted (l : list str) : list str := merge_sort str_le l.

(** Dict items are ordered by key: keys are unique, so the values are never
    compared. *)
Definition item_le (a b : str * list str) : Prop := str_le a.1 b.1.

#[global] Instance item_le_dec a b : Decision (item_le a b).
Proof. unfold item_le. apply _. Defined.

Definition sorted_items (l : list (str * list str)) : list (str * list str) :=
  merge_sort item_le l.

(* ===================================================================== *)
(** * Paths (pathlib.PurePosixPath) *)
(* ===================================================================== *)

Module Pathlib.

(** A path is its root (empty, one slash or two) and its components. *)
Record Path := { root : str; names : list str }.

Definition slash : Z := 47.
Definition dot : Z := 46.

(** One leading slash is the root; exactly two are kept; three or more
    collapse to one. *)
Definition parse_root (s : str) : str :=
  match s with
  | a :: r =>
    if a =? slash then
      match r with
      | b :: r' =>
        if b =? slash then
          match r' with
          | c :: _ => if c =? slash then [slash] else [slash; slash]
          | [] => [slash; slash]
          end
        else [slash]
      | [] => [slash]
      end
    else []
  | [] => []
  end.

Definition is_component (x : str) : bool :=
  negb (bool_decide (x = [])) && negb (bool_decide (x = [dot])).

(** [Path(s)]: empty components and single dots are dropped. *)
Definition of_str (s : str) : Path :=
  {| root := parse_root s; names := filter is_component (split_on slash s) |}.

(** [str(p)] *)
Definition to_str (p : Path) : str :=
  match root p, names p with
  | [], [] => [dot]
  | r, ns => r ++ join [slash] ns
  end.

(** [p / rel] for relative components. *)
Definition joinpath (p : Path) (rel : list str) : Path :=
  {| root := root p; names := names p ++ rel |}.

Fixpoint strip_prefix (pre l : list str) : option (list str) :=
  match pre, l with
  | [], _ => Some l
  | _ :: _, [] => None
  | a :: pre', b :: l' => if bool_decide (a = b) then strip_prefix pre' l' else None
  end.

(** [p.relative_to(base)]; [None] stands for the ValueError. *)
Definition relative_to (p base : Path) : option Path :=
  if bool_decide (root p = root base) then
    match strip_prefix (names base) (names p) with
    | Some rel => Some {| root := []; names := rel |}
    | None => None
    end
  else None.

(** [p.name] *)
Definition name (p : Path) : str := List.last (names p) [].

(** [p.suffix], as pathlib defines it up to Python 3.12: from the last dot
    of the name on, unless that dot starts or ends the name. *)
Definition suffix (p : Path) : str :=
  let n := name p in
  match rfind dot n with
  | Some i =>
    if ((0 <? i)%nat && (i <? length n - 1)%nat)%bool then drop i n else []
  | None => []
  end.

End Pathlib.

Abbreviation Path := Pathlib.Path.

(* ===================================================================== *)
(** * The world the program runs in *)
(* ===================================================================== *)

(** What [open(filepath, 'r', ...)] followed by [f.read()] does on a
    regular file. *)
Inductive read_result :=
| ReadBytes (data : list Z)     (* the bytes of the file *)
| ReadPermissionError           (* PermissionError *)
| ReadOSError.                  (* any other OSError *)

(** What a path yielded by [rglob] names.  [rglob] lists the names in a
    directory that can be read but not searched, and nothing below such a
    directory can be examined: [stat] fails with EACCES, which [is_file()]
    does not swallow, and so does [open]. *)
Inductive entry :=
| Regular (r : read_result)     (* [is_file()] holds *)
| NotRegular                    (* a directory, socket, dangling link ... *)
| Unreachable.                  (* [stat] raises PermissionError *)

(** An entry below the target directory: its components relative to the
    target, and what it names. *)
Definition dirent : Type := list str * entry.

(** What the target path names.  A directory is given by the sequence of
    entries that [rglob('*')] yields for it, in the order it yields them.
    A path is absent from the file system when [stat] fails with one of
    the errors [exists()] swallows (ENOENT, ENOTDIR, EBADF, ELOOP); with
    any other error (a name that is too long, a directory on the way
    that cannot be searched) [exists()] raises. *)
Inductive fsobject :=
| Directory (listing : list dirent)
| NonDirectory
| Inaccessible.

(** The exceptions that can leave the program.  PermissionError is an
    OSError, and nothing in the program tells the two apart once the
    exception has left [find_env_vars_in_file]. *)
Inductive exn := OSError | ValueError.

Record World := {
  argv : list str;                     (* sys.argv *)
  fs : gmap str fsobject;              (* the file system, by path string *)
  environ : gmap str str;              (* os.environ *)
  set_order : gset str -> list str;    (* the order this run iterates a set in *)
  dict_order : gmap str (list str) -> list (str * list str);
                                       (* and the items of a dict *)
  stdout : str;                        (* what has been printed *)
  stderr : list exn                    (* the tracebacks on standard error,
                                          by the exception each reports *)
}.

(** A set is iterated in some order, each element once. *)
Definition valid_order (order : gset str -> list str) : Prop :=
  forall X, order X ≡ₚ elements X.

(** So are the items of a dict; the order is that of insertion, which
    depends on the order in which the files were met. *)
Definition valid_dict_order
  (order : gmap str (list str) -> list (str * list str)) : Prop :=
  forall m, order m ≡ₚ map_to_list m.

Inductive outcome (A : Type) :=
| Done (a : A)          (* normal return *)
| Exit (status : Z)     (* sys.exit(status) *)
| Raise (e : exn).      (* an exception nobody catches *)
Arguments Done {A} a.
Arguments Exit {A} status.
Arguments Raise {A} e.

(** Computations of the program: they read and change the world and end in
    an outcome. *)
Definition M (A : Type) : Type := World -> outcome A * World.

Definition ret {A} (a : A) : M A := fun w => (Done a, w).

Definition bind {A B} (m : M A) (k : A -> M B) : M B :=
  fun w =>
    match m w with
    | (Done a, w') => k a w'
    | (Exit c, w') => (Exit c, w')
    | (Raise e, w') => (Raise e, w')
    end.

Declare Scope prog_scope.
Delimit Scope prog_scope with prog.
Notation "x <- m ;; k" := (bind m (fun x => k))
  (at level 100, m at next level, right associativity) : prog_scope.
Notation "m ;; k" := (bind m (fun _ => k))
  (at level 100, right associativity) : prog_scope.
Local Open Scope prog_scope.

Definition sys_exit {A} (status : Z) : M A := fun w => (Exit status, w).
Definition raise {A} (e : exn) : M A := fun w => (Raise e, w).

Definition sys_argv : M (list str) := fun w => (Done (argv w), w).
Definition os_environ : M (gmap str str) := fun w => (Done (environ w), w).

(** [list(X)] for a set. *)
Definition iterate (X : gset str) : M (list str) :=
  fun w => (Done (set_order w X), w).

(** [list(d.items())] for a dict. *)
Definition dict_items (d : gmap str (list str)) : M (list (str * list str)) :=
  fun w => (Done (dict_order w d), w).

(** The world after [text] has been written to standard output. *)
Definition write (w : World) (text : str) : World :=
  {| argv := argv w; fs := fs w; environ := environ w;
     set_order := set_order w; dict_order := dict_order w;
     stdout := stdout w ++ text; stderr := stderr w |}.

(** [print(s)], on a standard output that can encode [s].  A UTF-8
    stream with the strict error handler encodes every text but the lone
    surrogates that stand for undecodable bytes of a file name or of an
    argument; the names found in files never hold one, the decoder having
    dropped what it could not decode. *)
Definition print (s : str) : M unit := fun w => (Done tt, write w (s ++ [10])).



(** [p.exists()] *)
Definition path_exists (p : Path) : M bool :=
  fun w =>
    match fs w !! Pathlib.to_str p with
    | None => (Done false, w)
    | Some Inaccessible => (Raise OSError, w)
    | Some _ => (Done true, w)
    end.

(** [p.rglob('*')]; nothing is yielded unless [p] is a directory. *)
Definition rglob (p : Path) : M (list dirent) :=
  fun w => (Done match fs w !! Pathlib.to_str p with
                 | Some (Directory listing) => listing
                 | _ => []
                 end, w).

(** [filepath.is_file()]: the answer of [stat], or the PermissionError
    it raises. *)
Definition is_file (e : entry) : M bool :=
  fun w =>
    match e with
    | Regular _ => (Done true, w)
    | NotRegular => (Done false, w)
    | Unreachable => (Raise OSError, w)
    end.

(** Opening and reading a file changes nothing. *)
Definition open_read (e : entry) : M read_result :=
  fun w => (Done match e with
                 | Regular r => r
                 | NotRegular => ReadOSError
                 | Unreachable => ReadPermissionError
                 end, w).

Fixpoint for_each {A S} (xs : list A) (body : A -> S -> M S) (s : S) : M S :=
  match xs with
  | [] => ret s
  | x :: xs' => s' <- body x s ;; for_each xs' body s'
  end.

(* ===================================================================== *)
(** * The program *)
(* ===================================================================== *)

(** Lines 21-33.  With [errors='ignore'] decoding cannot fail, so of the
    two exceptions caught only PermissionError can occur. *)
Definition find_env_vars_in_file (e : entry) : M (gset str) :=
  r <- open_read e ;;
  match r with
  | ReadBytes data =>
    let content := universal_newlines (Utf8.decode_ignore data) in
    ret (extract_variables content)
  | ReadPermissionError => ret ∅
  | ReadOSError => raise OSError
  end.

Definition skip_dirs : list str :=
  [lit "__pycache__"; lit ".git"; lit "node_modules"; lit "venv";
   lit ".venv"; lit "env"].

Definition scanned_suffixes : list str :=
  [lit ".py"; lit ".js"; lit ".ts"; lit ".sh"; lit ".env"; lit ".yml";
   lit ".yaml"].

(** [any(skip in str(filepath) for skip in skip_dirs)] *)
Definition skipped (filepath : Path) : bool :=
  existsb (fun skip => contains skip (Pathlib.to_str filepath)) skip_dirs.

Definition suffix_listed (filepath : Path) : bool :=
  bool_decide (Pathlib.suffix filepath ∈ scanned_suffixes).

(** [env_vars_by_file] and [all_env_vars] *)
Definition scan_state : Type := gmap str (list str) * gset str.

(** The body of the loop, lines 55-60. *)
Definition scan_entry (target_dir : Path) (d : dirent) (st : scan_state)
  : M scan_state :=
  let filepath := Pathlib.joinpath target_dir d.1 in
  regular_file <- is_file d.2 ;;
  if regular_file && negb (skipped filepath) then
    if suffix_listed filepath then
      found <- find_env_vars_in_file d.2 ;;
      if bool_decide (found ≠ ∅) then
        match Pathlib.relative_to filepath target_dir with
        | Some rel =>
          vars <- iterate found ;;
          ret (<[Pathlib.to_str rel := sorted vars]> st.1, st.2 ∪ found)
        | None => raise ValueError
        end
      else ret st
    else ret st
  else ret st.

Definition usage1 : str := lit "Usage: python env_archaeologist.py <directory>".
Definition usage2 : str := lit "Example: python env_archaeologist.py .".

Definition not_found (target_dir : Path) : str :=
  lit "Directory '" ++ Pathlib.to_str target_dir ++
  lit "' not found. Did you check under the couch?".

(** The lines of the report, as the f-strings of lines 63-85 build them. *)
Definition summary_line (st : scan_state) : str :=
  [10; 0x1F50D] ++ lit " Found " ++ str_of_nat (size st.2) ++
  lit " unique environment variables in " ++ str_of_nat (size st.1) ++
  lit " files:".
Definition rule_line : str := replicate 60 61.
Definition file_line (filepath : str) : str :=
  [10; 0x1F4C4] ++ lit " " ++ filepath ++ lit ":".
Definition bullet_line (var : str) : str := lit "  " ++ [0x2022] ++ lit " " ++ var.
Definition all_header : str :=
  [10; 0x1F4CB] ++
  lit " All unique variables (alphabetical, because we're civilized):".
Definition plain_line (var : str) : str := lit "  " ++ var.
Definition set_header : str :=
  [10; 0x1F527] ++
  lit " Currently set in your environment (the ones that actually work):".
Definition check_line (var : str) : str := lit "  " ++ [0x2713] ++ lit " " ++ var.
Definition missing_header : str :=
  [10; 0x26A0; 0xFE0F] ++
  lit "  Not set (the ones that will break in production):".
Definition cross_line (var : str) : str := lit "  " ++ [0x2717] ++ lit " " ++ var.

(** Lines 63-73. *)
Definition report_found (st : scan_state) : M unit :=
  print (summary_line st) ;;
  print rule_line ;;
  items <- dict_items st.1 ;;
  for_each (sorted_items items)
    (fun item _ =>
       print (file_line item.1) ;;
       for_each item.2 (fun var _ => print (bullet_line var)) tt)
    tt ;;
  print all_header ;;
  vars <- iterate st.2 ;;
  for_each (sorted vars) (fun var _ => print (plain_line var)) tt.

(** [[var for var in vars if var in env]] *)
Definition vars_in (env : gmap str str) (vars : list str) : list str :=
  filter (fun var => is_Some (env !! var)) vars.

(** Lines 76-85. *)
Definition report_environment (all_env_vars : gset str) : M unit :=
  print set_header ;;
  vars <- iterate all_env_vars ;;
  env <- os_environ ;;
  let set_vars := vars_in env vars in
  for_each (sorted set_vars) (fun var _ => print (check_line var)) tt ;;
  let missing := all_env_vars ∖ list_to_set set_vars in
  if bool_decide (missing ≠ ∅) then
    print missing_header ;;
    vars <- iterate missing ;;
    for_each (sorted vars) (fun var _ => print (cross_line var)) tt
  else ret tt.

(** Lines 47-60: the walk over the target directory. *)
Definition scan (target_dir : Path) : M scan_state :=
  listing <- rglob target_dir ;;
  for_each listing (scan_entry target_dir) (∅, ∅).

Definition main : M unit :=
  args <- sys_argv ;;
  if (length args <? 2)%nat then
    print usage1 ;; print usage2 ;; sys_exit 1
  else
    let target_dir := Pathlib.of_str (nth 1 args []) in
    found <- path_exists target_dir ;;
    if negb found then
      print (not_found target_dir) ;; sys_exit 1
    else
      st <- scan target_dir ;;
      report_found st ;;
      report_environment st.2.

(** The exit status of the process and the world it leaves: 0 when [main]
    returns, the argument of [sys.exit], 1 after an uncaught exception. *)
Definition run (w : World) : Z * World :=
  match main w with
  | (Done _, w') => (0, w')
  | (Exit status, w') => (status, w')
  | (Raise _, w') => (1, w')
  end.

(** The world after the interpreter has written the traceback of [e] to
    standard error. *)
Definition report_exception (w : World) (e : exn) : World :=
  {| argv := argv w; fs := fs w; environ := environ w;
     set_order := set_order w; dict_order := dict_order w;
     stdout := stdout w; stderr := stderr w ++ [e] |}.

(** The process as a whole: the program, and the interpreter around it,
    which reports an exception that nobody caught on standard error
    before it exits with status 1.  It writes nothing after a normal
    return or after [sys.exit] with an integer. *)
Definition process (w : World) : Z * World :=
  match main w with
  | (Raise e, w') => (1, report_exception w' e)
  | _ => run w
  end.

(* ===================================================================== *)
(** * The loop and the report as functions *)
(* ===================================================================== *)

(** The text of a loop that prints one line per element. *)
Definition lines {A} (f : A -> str) (l : list A) : str :=
  flat_map (fun x => f x ++ [10]) l.

(** The match set of an entry, or the exception reading it raises. *)
Definition file_vars (e : entry) : outcome (gset str) :=
  match e with
  | Regular (ReadBytes data) =>
    Done (extract_variables (universal_newlines (Utf8.decode_ignore data)))
  | Regular ReadPermissionError | Unreachable => Done ∅
  | Regular ReadOSError | NotRegular => Raise OSError
  end.

(** [is_file()] returned True. *)
Definition regular (e : entry) : bool :=
  match e with Regular _ => true | _ => false end.

(** An entry the loop hands to [find_env_vars_in_file]. *)
Definition candidate (target_dir : Path) (d : dirent) : bool :=
  let filepath := Pathlib.joinpath target_dir d.1 in
  regular d.2 && negb (skipped filepath) && suffix_listed filepath.

(** The key under which an entry is filed: its path relative to the
    target. *)
Definition rel_key (rel : list str) : str :=
  Pathlib.to_str {| Pathlib.root := []; Pathlib.names := rel |}.

(** One turn of the loop on the state. *)
Definition entry_step (order : gset str -> list str) (target_dir : Path)
  (d : dirent) (st : scan_state) : outcome scan_state :=
  match d.2 with
  | Unreachable => Raise OSError
  | _ =>
    if candidate target_dir d then
      match file_vars d.2 with
      | Done found =>
        if bool_decide (found ≠ ∅)
        then Done (<[rel_key d.1 := sorted (order found)]> st.1, st.2 ∪ found)
        else Done st
      | Exit c => Exit c
      | Raise e => Raise e
      end
    else Done st
  end.

Fixpoint scan_steps (order : gset str -> list str) (target_dir : Path)
  (listing : list dirent) (st : scan_state) : outcome scan_state :=
  match listing with
  | [] => Done st
  | d :: listing' =>
    match entry_step order target_dir d st with
    | Done st' => scan_steps order target_dir listing' st'
    | Exit c => Exit c
    | Raise e => Raise e
    end
  end.

(** What [rglob] yields in a world. *)
Definition listing_of (w : World) (target_dir : Path) : list dirent :=
  match fs w !! Pathlib.to_str target_dir with
  | Some (Directory listing) => listing
  | _ => []
  end.

(** What lines 66-69 print for the per-file mapping. *)
Definition files_text (items : list (str * list str)) : str :=
  flat_map (fun item => file_line item.1 ++ [10] ++ lines bullet_line item.2) items.

(** What lines 63-73 print. *)
Definition found_text (w : World) (st : scan_state) : str :=
  summary_line st ++ [10] ++ rule_line ++ [10] ++
  files_text (sorted_items (dict_order w st.1)) ++
  all_header ++ [10] ++ lines plain_line (sorted (set_order w st.2)).

(** What lines 76-85 print. *)
Definition environment_text (order : gset str -> list str)
  (env : gmap str str) (all_env_vars : gset str) : str :=
  let set_vars := vars_in env (order all_env_vars) in
  let missing := all_env_vars ∖ list_to_set set_vars in
  set_header ++ [10] ++ lines check_line (sorted set_vars) ++
  (if bool_decide (missing ≠ ∅)
   then missing_header ++ [10] ++ lines cross_line (sorted (order missing))
   else []).

(** The whole report. *)
Definition report_text (w : World) (st : scan_state) : str :=
  found_text w st ++ environment_text (set_order w) (environ w) st.2.

(** The target directory of a run. *)
Definition target_of (w : World) : Path := Pathlib.of_str (nth 1 (argv w) []).

(** What [main] does once the target is known to exist: the outcome of
    the loop, and the report after a loop that came to its end. *)
Definition scan_and_report (w : World) : outcome unit * World :=
  match scan_steps (set_order w) (target_of w)
                   (listing_of w (target_of w)) (∅, ∅) with
  | Done st => (Done tt, write w (report_text w st))
  | Exit c => (Exit c, w)
  | Raise e => (Raise e, w)
  end.

(** What lines 38-39 print. *)
Definition usage_text : str := usage1 ++ [10] ++ usage2 ++ [10].

(** [is_file()] returns for every entry, and no entry handed to
    [find_env_vars_in_file] fails with an error other than
    PermissionError. *)
Definition readable (target_dir : Path) (listing : list dirent) : Prop :=
  Forall (fun d => d.2 ≠ Unreachable /\
                   (candidate target_dir d = true -> d.2 ≠ Regular ReadOSError))
         listing.

(* ===================================================================== *)
(** * Sample worlds *)
(* ===================================================================== *)

Definition script : str := lit "env_archaeologist.py".



(** A small project: one script that names three variables, one file that
    cannot be read, a directory, and a text file that is not scanned. *)
Definition project_listing : list dirent :=
  [ ([lit "app.py"],
     Regular (ReadBytes (lit "os.getenv('HOME') $PATH ${FOO}")));
    ([lit "conf"], NotRegular);
    ([lit "conf"; lit "secret.yml"], Regular ReadPermissionError);
    ([lit "notes.txt"], Regular (ReadBytes (lit "$IGNORED"))) ].

Definition world_project : World :=
  {| argv := [script; lit "proj"];
     fs := {[ lit "proj" := Directory project_listing ]};
     environ := {[ lit "PATH" := lit "/bin" ]};
     set_order := elements; dict_order := map_to_list; stdout := []; stderr := [] |}.

(** A target directory whose own name contains env, holding a dotenv
    file. *)
Definition dotenv_entry : dirent :=
  ([lit "prod.env"], Regular (ReadBytes (lit "URL=$HOST"))).

Definition world_dev_env : World :=
  {| argv := [script; lit "dev-env"];
     fs := {[ lit "dev-env" := Directory [dotenv_entry] ]};
     environ := ∅; set_order := elements; dict_order := map_to_list;
     stdout := []; stderr := [] |}.

(** The rule for excluded directories as the specification words it: a
    file is passed over when one of its path components is one of the
    excluded names. *)
Definition component_excluded (filepath : Path) : bool :=
  existsb (fun c => bool_decide (c ∈ skip_dirs)) (Pathlib.names filepath).

(** The files that are scanned according to the specification. *)
Definition specified_candidate (target_dir : Path) (d : dirent) : bool :=
  let filepath := Pathlib.joinpath target_dir d.1 in
  regular d.2 && negb (component_excluded filepath) && suffix_listed filepath.

(** A project with a module named environment.py. *)
Definition environment_py : dirent :=
  ([lit "environment.py"], Regular (ReadBytes (lit "os.getenv('HOME')"))).

Definition world_environment_py : World :=
  {| argv := [script; lit "proj"];
     fs := {[ lit "proj" :=
                Directory [ ([lit "app.py"], Regular (ReadBytes (lit "$PATH")));
                            environment_py ] ]};
     environ := ∅; set_order := elements; dict_order := map_to_list;
     stdout := []; stderr := [] |}.

(** The text os.environ.get("NAME") and the text os.environ["NAME"]. *)
Definition environ_get_NAME : str :=
  lit "os.environ.get(" ++ [dq] ++ lit "NAME" ++ [dq] ++ lit ")".
Definition environ_subscript_NAME : str :=
  lit "os.environ[" ++ [dq] ++ lit "NAME" ++ [dq] ++ lit "]".

(** A file that is not UTF-8: the byte FF, then the text $FOO. *)
Definition undecodable : list Z := [0xFF] ++ lit "$FOO".

(** The state the scan of the sample project ends in. *)
Definition project_state : scan_state :=
  ({[ lit "app.py" := [lit "FOO"; lit "HOME"; lit "PATH"] ]},
   {[ lit "FOO"; lit "HOME"; lit "PATH" ]}).

(** Two answers of the file system that hold the same entries, possibly
    listed in another order. *)
Definition same_entries (o1 o2 : option fsobject) : Prop :=
  match o1, o2 with
  | Some (Directory l1), Some (Directory l2) => l1 ≡ₚ l2
  | Some NonDirectory, Some NonDirectory => True
  | Some Inaccessible, Some Inaccessible => True
  | None, None => True
  | _, _ => False
  end.

(** A directory does not list the same relative path twice. *)
Definition distinct_paths (listing : list dirent) : Prop :=
  NoDup (map (fun d => rel_key d.1) listing).

(** The sample project met in another order, by a process that iterates
    its sets and dicts the other way round. *)
Definition world_project_again : World :=
  {| argv := [script; lit "proj"];
     fs := {[ lit "proj" := Directory (reverse project_listing) ]};
     environ := {[ lit "PATH" := lit "/bin" ]};
     set_order := fun X => reverse (elements X);
     dict_order := fun m => reverse (map_to_list m);
     stdout := []; stderr := [] |}.

(** What an entry contributes: the match set of a scanned file, nothing
    for an entry that is passed over. *)
Definition entry_found (target_dir : Path) (d : dirent) : outcome (gset str) :=
  match d.2 with
  | Unreachable => Raise OSError
  | _ => if candidate target_dir d then file_vars d.2 else Done ∅
  end.

(** Lines 58-60 on the state. *)
Definition add_found (order : gset str -> list str) (d : dirent)
  (found : gset str) (st : scan_state) : scan_state :=
  if bool_decide (found ≠ ∅)
  then (<[rel_key d.1 := sorted (order found)]> st.1, st.2 ∪ found)
  else st.

(* ===================================================================== *)
(** * Texts that name BAR *)
(* ===================================================================== *)


(** No name character follows: the text ends, or goes on with a character
    outside the class of name characters. *)
Definition name_ends (s : str) : bool :=
  match s with
  | [] => true
  | x :: _ => negb (atom_match name_char x)
  end.



(** Names that differ only in case; the sample project's environment has
    PATH alone. *)
Definition mixed_case_vars : gset str :=
  {[ lit "HOME"; lit "PATH"; lit "path" ]}.

(** What a run prints when the scan finds nothing: the summary with two
    zeros, the rule and the two headers that are always printed. *)
Definition empty_report : str :=
  summary_line (∅, ∅) ++ [10] ++ rule_line ++ [10] ++
  all_header ++ [10] ++ set_header ++ [10].

(** The sample project with one more script. *)
Definition world_project_grown : World :=
  {| argv := [script; lit "proj"];
     fs := {[ lit "proj" :=
                Directory (project_listing ++
                           [([lit "run.sh"], Regular (ReadBytes (lit "$EXTRA")))]) ]};
     environ := {[ lit "PATH" := lit "/bin" ]};
     set_order := elements; dict_order := map_to_list; stdout := []; stderr := [] |}.

(** A project with a dependency directory, a dotfile and a file without
    suffix. *)
Definition vendored_entry : dirent :=
  ([lit "node_modules"; lit "pkg"; lit "index.js"],
   Regular (ReadBytes (lit "process.env.NODE_PATH"))).
Definition gitignore_entry : dirent :=
  ([lit ".gitignore"], Regular (ReadBytes (lit "$HOME"))).

(** A project one of whose scripts cannot be read, for a reason other
    than permissions. *)
Definition broken_entry : dirent := ([lit "broken.sh"], Regular ReadOSError).

Definition world_broken : World :=
  {| argv := [script; lit "proj"];
     fs := {[ lit "proj" :=
                Directory [ ([lit "app.py"], Regular (ReadBytes (lit "$PATH")));
                            broken_entry ] ]};
     environ := ∅; set_order := elements; dict_order := map_to_list;
     stdout := []; stderr := [] |}.

(** A run whose argument names a file, and the same run started under
    another name with more arguments. *)
Definition world_on_file : World :=
  {| argv := [script; lit "app.py"];
     fs := {[ lit "app.py" := NonDirectory ]};
     environ := ∅; set_order := elements; dict_order := map_to_list;
     stdout := []; stderr := [] |}.

Definition world_on_file_more_arguments : World :=
  {| argv := [lit "./env_archaeologist.py"; lit "app.py"; lit "--verbose"];
     fs := {[ lit "app.py" := NonDirectory ]};
     environ := ∅; set_order := elements; dict_order := map_to_list;
     stdout := []; stderr := [] |}.

(** The state the scan of the grown project ends in. *)
Definition project_state_grown : scan_state :=
  ({[ lit "app.py" := [lit "FOO"; lit "HOME"; lit "PATH"];
      lit "run.sh" := [lit "EXTRA"] ]},
   {[ lit "EXTRA"; lit "FOO"; lit "HOME"; lit "PATH" ]}).

(** The atom a piece repeats. *)
Definition piece_atom (p : piece) : atom :=
  match p with One a | Opt a | Star a | Plus a => a end.

(** A text with one reference of each kind. *)
Definition four_references : str :=
  lit "os.getenv('HOME') os.environ['Path'] ${db_url} process.env.NODE_ENV".

(** A workflow file below .github. *)
Definition workflow_entry : dirent :=
  ([lit ".github"; lit "workflows"; lit "ci.yml"],
   Regular (ReadBytes (lit "run: echo $DEPLOY_TOKEN"))).

(** The same target with one more directory, which can be listed but not
    searched: the name of the file in it is known, and nothing else. *)
Definition locked_entry : dirent :=
  ([lit "locked"; lit "prod.env"], Unreachable).

Definition world_dev_env_locked : World :=
  {| argv := [script; lit "dev-env"];
     fs := {[ lit "dev-env" := Directory [dotenv_entry; locked_entry] ]};
     environ := ∅; set_order := elements; dict_order := map_to_list;
     stdout := []; stderr := [] |}.

(** A project with a directory that can be listed but not searched: the
    name of the script in it is known, and nothing else. *)
Definition unsearchable_entry : dirent :=
  ([lit "private"; lit "deploy.sh"], Unreachable).

Definition world_unsearchable : World :=
  {| argv := [script; lit "proj"];
     fs := {[ lit "proj" :=
                Directory [ ([lit "app.py"], Regular (ReadBytes (lit "$PATH")));
                            ([lit "private"], NotRegular);
                            unsearchable_entry ] ]};
     environ := ∅; set_order := elements; dict_order := map_to_list;
     stdout := []; stderr := [] |}.

(** A run on a path that cannot be examined: a directory on the way to
    it cannot be searched. *)
Definition world_inaccessible : World :=
  {| argv := [script; lit "vault/proj"];
     fs := {[ lit "vault/proj" := Inaccessible ]};
     environ := ∅; set_order := elements; dict_order := map_to_list;
     stdout := []; stderr := [] |}.

(* ===================================================================== *)
(** * Properties of the text functions and of the matcher *)
(* ===================================================================== *)

Section Text.

Lemma starts_with_spec p s :
  starts_with p s = true <-> exists t, s = p ++ t.
Proof.
  revert s. induction p as [|a p IH]; intros s; simpl.
  - split; eauto.
  - destruct s as [|b s].
    + split; [done|]. by intros [t ?].
    + rewrite andb_true_iff, Z.eqb_eq, IH. split.
      * intros [-> [t ->]]. eauto.
      * intros [t [= -> ->]]. eauto.
Qed.

Lemma contains_unfold needle hay :
  contains needle hay =
  starts_with needle hay ||
  match hay with [] => false | _ :: hay' => contains needle hay' end.
Proof. by destruct hay. Qed.

(** [contains] is the substring test. *)
Lemma contains_spec needle hay :
  contains needle hay = true <-> exists pre post, hay = pre ++ needle ++ post.
Proof.
  split.
  - induction hay as [|c hay IH]; rewrite contains_unfold, orb_true_iff.
    + intros [H|H]; [|done]. apply starts_with_spec in H as [t ->].
      by exists [], t.
    + intros [H|H].
      * apply starts_with_spec in H as [t ->]. by exists [], t.
      * destruct (IH H) as (pre & post & ->). by exists (c :: pre), post.
  - intros (pre & post & ->). induction pre as [|c pre IH].
    + rewrite contains_unfold. simpl app.
      rewrite (proj2 (starts_with_spec needle (needle ++ post))); eauto.
    + rewrite contains_unfold. simpl app. cbv iota. rewrite IH.
      apply orb_true_r.
Qed.

Lemma contains_app_l needle x y :
  contains needle x = true -> contains needle (x ++ y) = true.
Proof.
  rewrite !contains_spec. intros (pre & post & ->).
  exists pre, (post ++ y). by rewrite <- !app_assoc.
Qed.

Lemma contains_app_r needle x y :
  contains needle y = true -> contains needle (x ++ y) = true.
Proof.
  rewrite !contains_spec. intros (pre & post & ->).
  exists (x ++ pre), post. by rewrite <- !app_assoc.
Qed.

Lemma join_snoc sep xs x :
  exists t, join sep (xs ++ [x]) = t ++ x.
Proof.
  induction xs as [|y xs [t IH]].
  - by exists [].
  - simpl app. change (join sep (y :: xs ++ [x])) with
      (match xs ++ [x] with [] => y | _ :: _ => y ++ sep ++ join sep (xs ++ [x]) end).
    destruct (xs ++ [x]) eqn:E; [by destruct xs|].
    rewrite IH. exists (y ++ sep ++ t). by rewrite <- !app_assoc.
Qed.

Lemma join_app_prefix sep xs ys :
  exists t, join sep (xs ++ ys) = join sep xs ++ t.
Proof.
  induction xs as [|x xs [t IH]].
  - by exists (join sep ys).
  - simpl app.
    change (join sep (x :: xs ++ ys)) with
      (match xs ++ ys with [] => x | _ :: _ => x ++ sep ++ join sep (xs ++ ys) end).
    change (join sep (x :: xs)) with
      (match xs with [] => x | _ :: _ => x ++ sep ++ join sep xs end).
    destruct xs as [|x' xs].
    + destruct ([] ++ ys); [by exists []; rewrite app_nil_r | eauto].
    + rewrite IH. simpl app at 1. exists t. by rewrite <- !app_assoc.
Qed.

End Text.

Section Engine.

Lemma star_inv {R} a (k : str -> option R) s r :
  star a k s = Some r ->
  exists s', k s' = Some r /\ (length s' <= length s)%nat.
Proof.
  induction s as [|ch s IH]; simpl; [eauto|].
  destruct (atom_match a ch); [|eauto].
  destruct (star a k s) as [r'|] eqn:E; [|eauto].
  intros [= ->]. destruct (IH eq_refl) as (s' & ? & ?). exists s'. split; [done|lia].
Qed.

(** A match of [ps] hands the continuation a later position, at least
    [min_length ps] characters on. *)
Lemma pieces_inv {R} ps : forall s (k : str -> option R) r,
  pieces ps s k = Some r ->
  exists s', k s' = Some r /\ (length s' + min_length ps <= length s)%nat.
Proof.
  induction ps as [|p ps IH]; intros s k r H; simpl in H.
  { exists s. split; [done|simpl; lia]. }
  destruct p as [a|a|a|a]; simpl.
  - destruct s as [|ch s]; [done|]. destruct (atom_match a ch); [|done].
    destruct (IH _ _ _ H) as (s' & ? & ?). exists s'. split; [done|simpl; lia].
  - destruct s as [|ch s]; [by apply IH|].
    destruct (atom_match a ch); [|by apply IH].
    destruct (pieces ps s k) as [r'|] eqn:E; [|by apply IH].
    injection H as ->. destruct (IH _ _ _ E) as (s' & ? & ?).
    exists s'. split; [done|simpl; lia].
  - apply star_inv in H as (s1 & H & ?).
    destruct (IH _ _ _ H) as (s' & ? & ?). exists s'. split; [done|lia].
  - destruct s as [|ch s]; [done|]. destruct (atom_match a ch); [|done].
    apply star_inv in H as (s1 & H & ?).
    destruct (IH _ _ _ H) as (s' & ? & ?). exists s'. split; [done|simpl; lia].
Qed.

Lemma match_at_consumes p s g rest :
  match_at p s = Some (g, rest) ->
  (length rest + (min_length (before p) + min_length (group1 p)
                  + min_length (after p)) <= length s)%nat.
Proof.
  unfold match_at. intros H.
  apply pieces_inv in H as (s1 & H & ?).
  apply pieces_inv in H as (s2 & H & ?).
  apply pieces_inv in H as (s3 & [= _ <-] & ?). lia.
Qed.

(** No pattern of the program matches the empty text. *)
Lemma env_patterns_consume p s g rest :
  p ∈ ENV_PATTERNS -> match_at p s = Some (g, rest) ->
  (length rest < length s)%nat.
Proof.
  intros Hp H. apply match_at_consumes in H.
  unfold ENV_PATTERNS in Hp.
  repeat (apply elem_of_cons in Hp as [->|Hp]; [vm_compute min_length in H; lia|]).
  by apply elem_of_nil in Hp.
Qed.

End Engine.

(* ===================================================================== *)
(** * How the computations run *)
(* ===================================================================== *)

Section Runs.

Lemma write_nil w : write w [] = w.
Proof. destruct w; unfold write; simpl. by rewrite app_nil_r. Qed.

Lemma write_write w a b : write (write w a) b = write w (a ++ b).
Proof. unfold write; simpl. by rewrite app_assoc. Qed.

Lemma environ_write w t : environ (write w t) = environ w.
Proof. done. Qed.
Lemma set_order_write w t : set_order (write w t) = set_order w.
Proof. done. Qed.
Lemma dict_order_write w t : dict_order (write w t) = dict_order w.
Proof. done. Qed.
Lemma fs_write w t : fs (write w t) = fs w.
Proof. done. Qed.
Lemma argv_write w t : argv (write w t) = argv w.
Proof. done. Qed.
Lemma stdout_write w t : stdout (write w t) = stdout w ++ t.
Proof. done. Qed.
Lemma stderr_write w t : stderr (write w t) = stderr w.
Proof. done. Qed.

Lemma bind_done {A B} (m : M A) (k : A -> M B) w a w' :
  m w = (Done a, w') -> bind m k w = k a w'.
Proof. unfold bind. by intros ->. Qed.

Lemma bind_raise {A B} (m : M A) (k : A -> M B) w e w' :
  m w = (Raise e, w') -> bind m k w = (Raise e, w').
Proof. unfold bind. by intros ->. Qed.

Lemma print_run s w : print s w = (Done tt, write w (s ++ [10])).
Proof. done. Qed.

Lemma for_each_print {A} (f : A -> str) l w :
  for_each l (fun x _ => print (f x)) tt w = (Done tt, write w (lines f l)).
Proof.
  revert w. induction l as [|x l IH]; intros w; simpl.
  - by rewrite write_nil.
  - erewrite bind_done by apply print_run.
    rewrite IH, write_write. done.
Qed.

Lemma find_env_vars_in_file_run e w :
  find_env_vars_in_file e w = (file_vars e, w).
Proof. by destruct e as [[]| |]. Qed.

Lemma is_file_run e w :
  is_file e w = (match e with
                 | Unreachable => Raise OSError
                 | _ => Done (regular e)
                 end, w).
Proof. by destruct e. Qed.

Lemma strip_prefix_app pre rel : Pathlib.strip_prefix pre (pre ++ rel) = Some rel.
Proof.
  induction pre as [|a pre IH]; simpl; [done|].
  by rewrite bool_decide_eq_true_2.
Qed.

Lemma relative_to_joinpath target rel :
  Pathlib.relative_to (Pathlib.joinpath target rel) target
  = Some {| Pathlib.root := []; Pathlib.names := rel |}.
Proof.
  unfold Pathlib.relative_to, Pathlib.joinpath; simpl.
  rewrite bool_decide_eq_true_2 by done.
  by rewrite strip_prefix_app.
Qed.

Lemma scan_entry_run target d st w :
  scan_entry target d st w = (entry_step (set_order w) target d st, w).
Proof.
  unfold scan_entry, entry_step, candidate.
  unfold bind at 1. rewrite is_file_run.
  destruct d.2 as [r| |] eqn:He; cbn [regular andb]; try done.
  destruct (negb _); [|done].
  destruct (suffix_listed _); [|done].
  unfold bind at 1. rewrite find_env_vars_in_file_run. cbn [andb].
  destruct (file_vars (Regular r)) as [found| |]; try done.
  destruct (bool_decide (found ≠ ∅)); [|done].
  by rewrite relative_to_joinpath.
Qed.

Lemma scan_loop_run target listing st w :
  for_each listing (scan_entry target) st w
  = (scan_steps (set_order w) target listing st, w).
Proof.
  revert st. induction listing as [|d l IH]; intros st; simpl; [done|].
  unfold bind. rewrite scan_entry_run.
  destruct (entry_step _ _ _ _); auto.
Qed.

Lemma scan_run target w :
  scan target w
  = (scan_steps (set_order w) target (listing_of w target) (∅, ∅), w).
Proof. unfold scan, bind, rglob. simpl. apply scan_loop_run. Qed.

End Runs.

Section Report.

Lemma files_loop_run items w :
  for_each items
    (fun item _ =>
       print (file_line item.1) ;;
       for_each item.2 (fun var _ => print (bullet_line var)) tt) tt w
  = (Done tt, write w (files_text items)).
Proof.
  revert w. induction items as [|item items IH]; intros w.
  - simpl. by rewrite write_nil.
  - cbn [for_each]. unfold bind at 1. unfold bind at 1.
    rewrite print_run, for_each_print, IH, !write_write.
    do 2 f_equal. unfold files_text. cbn [flat_map].
    by rewrite <- !app_assoc.
Qed.

Lemma report_found_run st w :
  report_found st w = (Done tt, write w (found_text w st)).
Proof.
  unfold report_found, found_text.
  do 2 (unfold bind at 1; rewrite print_run).
  unfold bind at 1, dict_items at 1.
  unfold bind at 1. rewrite files_loop_run.
  unfold bind at 1. rewrite print_run.
  unfold bind at 1, iterate at 1. rewrite for_each_print.
  rewrite !write_write, !set_order_write, !dict_order_write.
  by rewrite <- !app_assoc.
Qed.

Lemma report_environment_run vars w :
  report_environment vars w
  = (Done tt, write w (environment_text (set_order w) (environ w) vars)).
Proof.
  unfold report_environment, environment_text.
  unfold bind at 1; rewrite print_run.
  unfold bind at 1, iterate at 1.
  unfold bind at 1, os_environ at 1.
  unfold bind at 1. rewrite for_each_print.
  rewrite !environ_write, !set_order_write.
  case_bool_decide.
  - unfold bind at 1; rewrite print_run.
    unfold bind at 1, iterate at 1. rewrite for_each_print.
    rewrite !write_write, !set_order_write. by rewrite <- !app_assoc.
  - unfold ret. rewrite !write_write, app_nil_r. by rewrite <- !app_assoc.
Qed.

Lemma report_text_empty w :
  valid_order (set_order w) -> valid_dict_order (dict_order w) ->
  report_text w (∅, ∅) = empty_report.
Proof.
  intros Hs Hd. unfold report_text, found_text, environment_text, empty_report.
  cbn [fst snd].
  assert (set_order w ∅ = []) as ->.
  { apply Permutation_nil_r. by rewrite (Hs ∅), elements_empty. }
  assert (dict_order w ∅ = []) as ->.
  { apply Permutation_nil_r. by rewrite (Hd ∅), map_to_list_empty. }
  change (vars_in (environ w) []) with (@nil str).
  rewrite bool_decide_eq_false_2 by (intros H; apply H; set_solver).
  change (sorted []) with (@nil str).
  change (sorted_items []) with (@nil (str * list str)).
  cbn [files_text lines flat_map]. by rewrite !app_nil_r, <- !app_assoc.
Qed.

End Report.

Section Main.

Lemma main_no_argument w :
  (length (argv w) < 2)%nat ->
  main w = (Exit 1, write w usage_text).
Proof.
  intros Hlen. unfold main. unfold bind at 1, sys_argv at 1.
  apply Nat.ltb_lt in Hlen. rewrite Hlen.
  do 2 (unfold bind at 1; rewrite print_run).
  unfold sys_exit. rewrite write_write. unfold usage_text.
  by rewrite <- !app_assoc.
Qed.

Lemma main_with_argument w :
  (2 <= length (argv w))%nat ->
  main w =
    match fs w !! Pathlib.to_str (target_of w) with
    | None => (Exit 1, write w (not_found (target_of w) ++ [10]))
    | Some Inaccessible => (Raise OSError, w)
    | Some _ => scan_and_report w
    end.
Proof.
  intros Hlen. unfold main. unfold bind at 1, sys_argv at 1.
  apply Nat.ltb_ge in Hlen. rewrite Hlen.
  unfold bind at 1, path_exists at 1. fold (target_of w).
  assert (bind (scan (target_of w))
            (fun st => bind (report_found st)
                         (fun _ => report_environment st.2)) w
          = scan_and_report w) as Hscan.
  { unfold scan_and_report. unfold bind at 1. rewrite scan_run.
    destruct (scan_steps _ _ _ _) as [st| |]; try done.
    unfold bind at 1. rewrite report_found_run, report_environment_run.
    rewrite write_write, environ_write, set_order_write. done. }
  destruct (fs w !! Pathlib.to_str (target_of w)) as [[| |]|]; cbn [negb];
    done.
Qed.

Lemma file_vars_readable e :
  regular e = true -> e ≠ Regular ReadOSError ->
  exists found, file_vars e = Done found.
Proof. destruct e as [[]| |]; simpl; intros; try done; eauto. Qed.

Lemma entry_step_reachable order target d st :
  d.2 <> Unreachable ->
  entry_step order target d st =
  if candidate target d then
    match file_vars d.2 with
    | Done found =>
      if bool_decide (found ≠ ∅)
      then Done (<[rel_key d.1 := sorted (order found)]> st.1, st.2 ∪ found)
      else Done st
    | Exit c => Exit c
    | Raise e => Raise e
    end
  else Done st.
Proof. intros Hu. unfold entry_step. by destruct d.2. Qed.

Lemma entry_step_done order target d st st' :
  entry_step order target d st = Done st' -> d.2 <> Unreachable.
Proof. unfold entry_step. intros H Hu. by rewrite Hu in H. Qed.

Lemma entry_step_readable order target d st :
  d.2 ≠ Unreachable ->
  (candidate target d = true -> d.2 ≠ Regular ReadOSError) ->
  exists st', entry_step order target d st = Done st'.
Proof.
  intros Hu Hd. rewrite entry_step_reachable by done.
  destruct (candidate target d) eqn:Hc; [|eauto].
  destruct (file_vars_readable d.2) as [found ->]; auto.
  - unfold candidate in Hc. by destruct (regular d.2).
  - destruct (bool_decide _); eauto.
Qed.


End Main.

(* ===================================================================== *)
(** * Exit status and side effects *)
(* ===================================================================== *)

Section ExitStatus.




End ExitStatus.

(* ===================================================================== *)
(** * Which files are scanned *)
(* ===================================================================== *)

Section Exclusion.

Lemma env_in_joinpath target rel :
  contains (lit "env") (Pathlib.to_str target) = true ->
  contains (lit "env") (Pathlib.to_str (Pathlib.joinpath target rel)) = true.
Proof.
  destruct target as [r ns]. unfold Pathlib.to_str, Pathlib.joinpath.
  cbn [Pathlib.root Pathlib.names].
  destruct (join_app_prefix [Pathlib.slash] ns rel) as [t Ht].
  assert (contains (lit "env") (r ++ join [Pathlib.slash] ns) = true ->
          contains (lit "env") (r ++ join [Pathlib.slash] (ns ++ rel)) = true)
    as Hin.
  { intros H. rewrite Ht, app_assoc. by apply contains_app_l. }
  by destruct r as [|c r], ns as [|n ns].
Qed.

Lemma to_str_named p :
  Pathlib.names p <> [] ->
  Pathlib.to_str p = Pathlib.root p ++ join [Pathlib.slash] (Pathlib.names p).
Proof.
  unfold Pathlib.to_str. by destruct (Pathlib.root p), (Pathlib.names p).
Qed.

Lemma name_in_to_str p :
  Pathlib.names p <> [] ->
  exists t, Pathlib.to_str p = t ++ Pathlib.name p.
Proof.
  intros Hne. rewrite to_str_named by done. unfold Pathlib.name.
  destruct (join_snoc [Pathlib.slash] (removelast (Pathlib.names p))
              (List.last (Pathlib.names p) [])) as [t Ht].
  rewrite <- (app_removelast_last [] Hne) in Ht. rewrite Ht.
  exists (Pathlib.root p ++ t). by rewrite <- app_assoc.
Qed.

Lemma suffix_in_name p :
  Pathlib.suffix p <> [] ->
  Pathlib.names p <> [] /\
  exists stem, Pathlib.name p = stem ++ Pathlib.suffix p.
Proof.
  unfold Pathlib.suffix. intros H. split.
  - intros Hn. unfold Pathlib.name in H. rewrite Hn in H. by simpl in H.
  - destruct (rfind Pathlib.dot (Pathlib.name p)) as [i|]; [|done].
    destruct (_ && _)%bool; [|done].
    exists (take i (Pathlib.name p)). by rewrite take_drop.
Qed.

Lemma suffix_env_contains p :
  Pathlib.suffix p = lit ".env" ->
  contains (lit "env") (Pathlib.to_str p) = true.
Proof.
  intros Hs. destruct (suffix_in_name p) as [Hne [stem Hstem]].
  { by rewrite Hs. }
  destruct (name_in_to_str p Hne) as [t ->].
  apply contains_app_r. rewrite Hstem, Hs.
  apply contains_spec. exists (stem ++ [Pathlib.dot]), [].
  rewrite <- app_assoc. by rewrite app_nil_r.
Qed.

Lemma split_on_cons sep s : exists c cs, split_on sep s = c :: cs.
Proof.
  induction s as [|a s (c & cs & IH)]; simpl; [eauto|].
  destruct (a =? sep); [eauto|]. rewrite IH. eauto.
Qed.

Lemma split_on_head sep n post :
  sep ∉ n -> exists c cs, split_on sep (n ++ post) = (n ++ c) :: cs.
Proof.
  induction n as [|a n IH]; intros Hn; simpl.
  - apply split_on_cons.
  - apply not_elem_of_cons in Hn as [Ha Hn].
    destruct (IH Hn) as (c & cs & ->).
    destruct (Z.eqb_spec a sep); [congruence|]. eauto.
Qed.

(** A text without the separator that occurs in [s] occurs in one of the
    pieces [s] splits into. *)
Lemma split_on_contains sep needle s :
  sep ∉ needle -> contains needle s = true ->
  exists c, c ∈ split_on sep s /\ contains needle c = true.
Proof.
  intros Hn H. apply contains_spec in H as (pre & post & ->).
  induction pre as [|a pre (c & Hc & Hin)].
  - destruct (split_on_head sep needle post Hn) as (c & cs & Hs).
    exists (needle ++ c). simpl. rewrite Hs. split; [left|].
    apply contains_spec. by exists [], c.
  - simpl. destruct (a =? sep); [exists c; split; [by right|done]|].
    destruct (split_on_cons sep (pre ++ needle ++ post)) as (x & xs & Hs).
    rewrite Hs in *. apply elem_of_cons in Hc as [->|Hc].
    + exists (a :: x). split; [left|]. by apply (contains_app_r _ [a]).
    + exists c. split; [by right|done].
Qed.

Lemma join_contains sep needle c xs :
  c ∈ xs -> contains needle c = true -> contains needle (join sep xs) = true.
Proof.
  intros Hin Hc. induction xs as [|x xs IH]; [by apply elem_of_nil in Hin|].
  change (join sep (x :: xs)) with
    (match xs with [] => x | _ :: _ => x ++ sep ++ join sep xs end).
  apply elem_of_cons in Hin as [->|Hin].
  - destruct xs; [done|]. by apply contains_app_l.
  - destruct xs as [|y ys]; [by apply elem_of_nil in Hin|].
    apply contains_app_r, contains_app_r. by apply IH.
Qed.

(** An argument that contains env names a path whose string contains it:
    the component that holds it is neither empty nor a single dot, so
    [Path] keeps it. *)
Lemma env_in_argument arg :
  contains (lit "env") arg = true ->
  contains (lit "env") (Pathlib.to_str (Pathlib.of_str arg)) = true.
Proof.
  intros H.
  destruct (split_on_contains Pathlib.slash (lit "env") arg) as (c & Hc & Hin);
    [|done|].
  { change (lit "env") with [101; 110; 118]. unfold Pathlib.slash.
    rewrite !elem_of_cons, elem_of_nil. intuition discriminate. }
  assert (c ∈ Pathlib.names (Pathlib.of_str arg)) as Hnames.
  { unfold Pathlib.of_str. cbn [Pathlib.names].
    apply list_elem_of_filter. split; [|done].
    apply Is_true_true. unfold Pathlib.is_component.
    rewrite !bool_decide_eq_false_2; [done| |];
      intros ->; vm_compute in Hin; discriminate. }
  rewrite to_str_named by (intros E; rewrite E in Hnames; by apply elem_of_nil in Hnames).
  apply contains_app_r. by apply (join_contains _ _ c).
Qed.

Lemma skipped_env p :
  contains (lit "env") (Pathlib.to_str p) = true -> skipped p = true.
Proof.
  intros H. unfold skipped. apply existsb_exists. exists (lit "env").
  split; [|done]. unfold skip_dirs. simpl. tauto.
Qed.

Lemma entry_step_not_candidate order target d st :
  d.2 <> Unreachable -> candidate target d = false ->
  entry_step order target d st = Done st.
Proof. intros Hu Hc. unfold entry_step. rewrite Hc. by destruct d.2. Qed.

Lemma scan_steps_all_skipped order target listing st :
  Forall (fun d => d.2 <> Unreachable) listing ->
  (forall d, d ∈ listing -> candidate target d = false) ->
  scan_steps order target listing st = Done st.
Proof.
  induction 1 as [|d l Hd _ IH]; intros H; simpl; [done|].
  rewrite entry_step_not_candidate; [|done|apply H; left].
  apply IH. intros d' Hd'. apply H. by right.
Qed.

(** A target whose path contains env and that holds a directory which can
    be listed but not searched: the scan does not pass over the entry
    below that directory, it ends in the PermissionError of [is_file()],
    and the run prints no report. *)
Lemma locked_directory_below_env_root :
  let w := world_dev_env_locked in
  contains (lit "env") (Pathlib.to_str (target_of w)) = true /\
  scan (target_of w) w = (Raise OSError, w) /\
  run w = (1, w).
Proof. intros w. split; [|split]; reflexivity. Qed.

(** C2: an entry for which [is_file()] returns and whose path string,
    target directory included, contains env is passed over whatever it
    holds; a path with the suffix .env has env in its path string, so
    that entry of the suffix list never lets a file through; and when the
    path of the target directory contains env, the scan of a directory
    tree in which [is_file()] returns for every entry finds nothing, so
    that a run on an argument that contains env prints the report of an
    empty scan. *)
Theorem env_substring_excludes (target : Path) (d : dirent)
    (st : scan_state) (w : World) :
  let filepath := Pathlib.joinpath target d.1 in
  (d.2 <> Unreachable ->
   contains (lit "env") (Pathlib.to_str filepath) = true ->
     scan_entry target d st w = (Done st, w)) /\
  (Pathlib.suffix filepath = lit ".env" ->
     contains (lit "env") (Pathlib.to_str filepath) = true /\
     (d.2 <> Unreachable -> scan_entry target d st w = (Done st, w))) /\
  (contains (lit "env") (Pathlib.to_str target) = true ->
   Forall (fun d' : dirent => d'.2 <> Unreachable) (listing_of w target) ->
     scan target w = (Done (∅, ∅), w)) /\
  (forall obj,
   (2 <= length (argv w))%nat ->
   contains (lit "env") (nth 1 (argv w) []) = true ->
   fs w !! Pathlib.to_str (target_of w) = Some obj ->
   obj <> Inaccessible ->
   Forall (fun d' : dirent => d'.2 <> Unreachable)
          (listing_of w (target_of w)) ->
     run w = (0, write w (report_text w (∅, ∅)))).
Proof.
  intros filepath.
  assert (d.2 <> Unreachable ->
          contains (lit "env") (Pathlib.to_str filepath) = true ->
          scan_entry target d st w = (Done st, w)) as Hskip.
  { intros Hu H. rewrite scan_entry_run.
    rewrite entry_step_not_candidate; [done|done|].
    unfold candidate. fold filepath. rewrite (skipped_env _ H).
    by rewrite andb_false_r. }
  assert (forall t, contains (lit "env") (Pathlib.to_str t) = true ->
          Forall (fun d' : dirent => d'.2 <> Unreachable) (listing_of w t) ->
          scan_steps (set_order w) t (listing_of w t) (∅, ∅) = Done (∅, ∅))
    as Hscan.
  { intros t H Hu. apply scan_steps_all_skipped; [done|].
    intros d' _. unfold candidate.
    rewrite (skipped_env _ (env_in_joinpath t d'.1 H)).
    by rewrite andb_false_r. }
  split; [done|]. split; [|split].
  - intros Hs. apply suffix_env_contains in Hs. auto.
  - intros H Hu. by rewrite scan_run, Hscan.
  - intros obj Hlen Harg Hsome Hobj Hu. unfold run.
    rewrite main_with_argument by done. rewrite Hsome.
    unfold scan_and_report.
    rewrite Hscan by (done || apply env_in_argument, Harg).
    by destruct obj.
Qed.

End Exclusion.

Lemma env_substring_excludes_witness :
  let target := target_of world_dev_env in
  scan_entry target dotenv_entry (∅, ∅) world_dev_env
  = (Done (∅, ∅), world_dev_env) /\
  contains (lit "env")
    (Pathlib.to_str (Pathlib.joinpath target dotenv_entry.1)) = true /\
  scan target world_dev_env = (Done (∅, ∅), world_dev_env) /\
  run world_dev_env
  = (0, write world_dev_env (report_text world_dev_env (∅, ∅))).
Proof.
  intros target.
  destruct (env_substring_excludes target dotenv_entry (∅, ∅) world_dev_env)
    as (H1 & H2 & H3 & H4).
  split; [|split; [|split]].
  - apply H1; [discriminate | reflexivity].
  - apply H2. reflexivity.
  - apply H3; [reflexivity|].
    vm_compute listing_of. repeat constructor; discriminate.
  - apply (H4 (Directory [dotenv_entry]));
      [simpl; lia | reflexivity | reflexivity | discriminate |].
    vm_compute listing_of. repeat constructor; discriminate.
Defined.

Section Candidates.

(** C1, at a failing input: environment.py is a regular file under the
    target, none of its path components is an excluded name, its suffix
    is listed and its match set is not empty; yet the scan completes
    without it among the keys of the per-file mapping, because env is a
    substring of its path string. *)
Theorem environment_py_not_reported :
  let w := world_environment_py in
  let target := target_of w in
  environment_py ∈ listing_of w target /\
  specified_candidate target environment_py = true /\
  find_env_vars_in_file environment_py.2 w = (Done {[ lit "HOME" ]}, w) /\
  contains (lit "env")
    (Pathlib.to_str (Pathlib.joinpath target environment_py.1)) = true /\
  exists st, scan target w = (Done st, w) /\
    dom st.1 = {[ lit "app.py" ]} /\
    rel_key environment_py.1 ∉ dom st.1.
Proof.
  intros w target. split; [|split; [|split; [|split]]].
  - vm_compute. right. left.
  - reflexivity.
  - rewrite find_env_vars_in_file_run. vm_compute. reflexivity.
  - reflexivity.
  - rewrite scan_run. eexists. split; [vm_compute; reflexivity|].
    split; [vm_compute; reflexivity|].
    vm_compute. intros H. discriminate H.
Qed.

End Candidates.

(* ===================================================================== *)
(** * What the patterns find *)
(* ===================================================================== *)

Section Patterns.

(** C3, at a failing input: the text os.environ.get("NAME"), which the
    comment on the second pattern names, matches no pattern, so NAME is
    not in the match set; the subscript form os.environ["NAME"] is found. *)
Theorem environ_get_not_matched :
  extract_variables environ_get_NAME = ∅ /\
  extract_variables environ_subscript_NAME = {[ lit "NAME" ]}.
Proof. split; vm_compute; reflexivity. Qed.

End Patterns.

(* ===================================================================== *)
(** * Files that cannot be read or decoded *)
(* ===================================================================== *)

Section Decoding.

Import Utf8.

Lemma never_starts_seq2 b b1 : never_starts b = true -> seq2 b b1 = None.
Proof.
  unfold never_starts, seq2, between. intros H.
  destruct (Z.leb_spec 0xC2 b), (Z.leb_spec b 0xDF), (Z.leb_spec b 0xF4),
    (Z.leb_spec 0 b), (Z.leb_spec b 0x7F); simpl in *; try done; lia.
Qed.

Lemma never_starts_seq3 b b1 b2 : never_starts b = true -> seq3 b b1 b2 = None.
Proof.
  unfold never_starts, seq3, second_of3, between. intros H.
  destruct (Z.eqb_spec b 0xE0), (Z.eqb_spec b 0xED); subst; try done.
  destruct (Z.leb_spec 0xC2 b), (Z.leb_spec 0xE1 b), (Z.leb_spec b 0xEF),
    (Z.leb_spec b 0xF4), (Z.leb_spec 0 b), (Z.leb_spec b 0x7F);
    simpl in *; try done; lia.
Qed.

Lemma never_starts_seq4 b b1 b2 b3 :
  never_starts b = true -> seq4 b b1 b2 b3 = None.
Proof.
  unfold never_starts, seq4, second_of4, between. intros H.
  destruct (Z.eqb_spec b 0xF0), (Z.eqb_spec b 0xF4); subst; try done.
  destruct (Z.leb_spec 0xC2 b), (Z.leb_spec 0xF1 b), (Z.leb_spec b 0xF3),
    (Z.leb_spec b 0xF4), (Z.leb_spec 0 b), (Z.leb_spec b 0x7F);
    simpl in *; try done; lia.
Qed.

(** A byte that begins no sequence is dropped. *)
Lemma decode_ignore_never_starts b rest :
  never_starts b = true -> decode_ignore (b :: rest) = decode_ignore rest.
Proof.
  intros H. cbn [decode_ignore].
  assert (between 0 0x7F b = false) as ->.
  { unfold never_starts in H. by destruct (between 0 0x7F b). }
  destruct rest as [|b1 [|b2 [|b3 r3]]];
    rewrite ?never_starts_seq2, ?never_starts_seq3, ?never_starts_seq4 by done;
    done.
Qed.

(** On a prefix that is UTF-8 the lenient decoder yields its text. *)
Lemma decode_ignore_app_strict n : forall pre text rest,
  (length pre <= n)%nat ->
  decode_strict pre = Some text ->
  decode_ignore (pre ++ rest) = text ++ decode_ignore rest.
Proof.
  induction n as [|n IH]; intros pre text rest Hlen Hs.
  { destruct pre; [|simpl in Hlen; lia]. by injection Hs as <-. }
  destruct pre as [|b0 r0]; [by injection Hs as <-|].
  simpl in Hlen. rewrite <- app_comm_cons.
  cbn [decode_strict decode_ignore] in *.
  destruct (between 0 0x7F b0).
  { destruct (decode_strict r0) as [t|] eqn:E; [|done]. injection Hs as <-.
    rewrite (IH r0 t) by (done || lia). done. }
  destruct r0 as [|b1 r1]; [done|]. rewrite <- app_comm_cons.
  simpl in Hlen. destruct (seq2 b0 b1).
  { destruct (decode_strict r1) as [t|] eqn:E; [|done]. injection Hs as <-.
    rewrite (IH r1 t) by (done || lia). done. }
  destruct r1 as [|b2 r2]; [done|]. rewrite <- app_comm_cons.
  simpl in Hlen. destruct (seq3 b0 b1 b2).
  { destruct (decode_strict r2) as [t|] eqn:E; [|done]. injection Hs as <-.
    rewrite (IH r2 t) by (done || lia). done. }
  destruct r2 as [|b3 r3]; [done|]. rewrite <- app_comm_cons.
  simpl in Hlen. destruct (seq4 b0 b1 b2 b3); [|done].
  destruct (decode_strict r3) as [t|] eqn:E; [|done]. injection Hs as <-.
  rewrite (IH r3 t) by (done || lia). done.
Qed.

(** Text that is UTF-8 is read as it is. *)
Lemma decode_ignore_strict data text :
  decode_strict data = Some text -> decode_ignore data = text.
Proof.
  intros H.
  pose proof (decode_ignore_app_strict (length data) data text [] (le_n _) H)
    as Heq.
  by rewrite !app_nil_r in Heq.
Qed.

(** After a prefix that is UTF-8, a byte that begins no sequence is
    dropped and decoding goes on behind it. *)
Lemma decode_ignore_drops pre text b post :
  decode_strict pre = Some text -> never_starts b = true ->
  decode_ignore (pre ++ b :: post) = text ++ decode_ignore post.
Proof.
  intros Hs Hb.
  rewrite (decode_ignore_app_strict (length pre) pre text) by done.
  by rewrite decode_ignore_never_starts.
Qed.

End Decoding.

Section Unreadable.

(** C4, as stated, fails twice.  These bytes are not UTF-8, so a strict
    decoder rejects them, yet the file yields the match set with FOO in
    it, not the empty one.  And a file in a directory that cannot be
    searched is a file whose read raises a permission error, for which
    [find_env_vars_in_file] would return the empty set; the loop never
    calls it, because [is_file()] comes first and raises: the scan stops
    there and the run prints nothing. *)
Lemma undecodable_file_has_matches :
  (Utf8.decode_strict undecodable = None /\
   find_env_vars_in_file (Regular (ReadBytes undecodable)) world_project
   = (Done {[ lit "FOO" ]}, world_project) /\
   ({[ lit "FOO" ]} : gset str) <> ∅) /\
  (open_read unsearchable_entry.2 world_unsearchable
   = (Done ReadPermissionError, world_unsearchable) /\
   find_env_vars_in_file unsearchable_entry.2 world_unsearchable
   = (Done ∅, world_unsearchable) /\
   scan (target_of world_unsearchable) world_unsearchable
   = (Raise OSError, world_unsearchable) /\
   run world_unsearchable = (1, world_unsearchable)).
Proof.
  split; [split; [reflexivity|split]|].
  - rewrite find_env_vars_in_file_run. vm_compute. reflexivity.
  - vm_compute. discriminate.
  - repeat split; reflexivity.
Qed.

(** C4, amended: a file that [is_file()] reports as a regular file, and
    whose read raises a permission error or whose bytes are not UTF-8,
    never makes [find_env_vars_in_file] raise.  The permission error
    yields the empty match set and leaves the state of the scan as it
    was; bytes, decodable or not, yield the match set of the text left
    when the undecodable ones are dropped.  Either way the loop goes on
    with the remaining entries. *)
Theorem unreadable_file_does_not_stop_scan (target : Path) (rel : list str)
    (e : entry) (rest : list dirent) (st : scan_state) (w : World) :
  is_file e w = (Done true, w) ->
  e <> Regular ReadOSError ->
  exists found st',
    find_env_vars_in_file e w = (Done found, w) /\
    (e = Regular ReadPermissionError -> found = ∅ /\ st' = st) /\
    (forall data, e = Regular (ReadBytes data) ->
       found = extract_variables
                 (universal_newlines (Utf8.decode_ignore data))) /\
    (forall pre text b post,
       e = Regular (ReadBytes (pre ++ b :: post)) ->
       Utf8.decode_strict pre = Some text -> Utf8.never_starts b = true ->
       found = extract_variables
                 (universal_newlines (text ++ Utf8.decode_ignore post))) /\
    scan_entry target (rel, e) st w = (Done st', w) /\
    for_each ((rel, e) :: rest) (scan_entry target) st w
    = for_each rest (scan_entry target) st' w.
Proof.
  intros He Hr.
  assert (exists r, e = Regular r) as [r ->].
  { destruct e; try discriminate He. eauto. }
  destruct (file_vars_readable (Regular r)) as [found Hfound]; [done|congruence|].
  destruct (entry_step_readable (set_order w) target (rel, Regular r) st)
    as [st' Hst']; [done|simpl; congruence|].
  exists found, st'. split; [|split; [|split; [|split; [|split]]]].
  - by rewrite find_env_vars_in_file_run, Hfound.
  - intros [= ->]. simpl in Hfound. injection Hfound as <-. split; [done|].
    unfold entry_step in Hst'. simpl in Hst'.
    destruct (candidate _ _); [|congruence].
    rewrite bool_decide_eq_false_2 in Hst' by (intros H; by apply H).
    congruence.
  - intros data [= ->]. simpl in Hfound. congruence.
  - intros pre text b post [= ->] Hpre Hb. simpl in Hfound.
    rewrite (decode_ignore_drops pre text b post Hpre Hb) in Hfound.
    congruence.
  - by rewrite scan_entry_run, Hst'.
  - simpl. unfold bind at 1. by rewrite scan_entry_run, Hst'.
Qed.

Lemma unreadable_file_does_not_stop_scan_witness :
  exists found st',
    find_env_vars_in_file (Regular (ReadBytes undecodable)) world_project
    = (Done found, world_project) /\
    scan_entry (target_of world_project)
      ([lit "broken.sh"], Regular (ReadBytes undecodable)) (∅, ∅) world_project
    = (Done st', world_project).
Proof.
  destruct (unreadable_file_does_not_stop_scan (target_of world_project)
              [lit "broken.sh"] (Regular (ReadBytes undecodable)) [] (∅, ∅)
              world_project)
    as (found & st' & H1 & _ & _ & _ & H2 & _).
  - reflexivity.
  - discriminate.
  - exists found, st'. split; assumption.
Defined.

End Unreadable.

(* ===================================================================== *)
(** * The global set and the cross-reference *)
(* ===================================================================== *)

Section Aggregate.

Lemma entry_step_vars order target d st st' :
  entry_step order target d st = Done st' ->
  forall v, v ∈ st'.2 <->
    v ∈ st.2 \/
    exists found, candidate target d = true /\
                  file_vars d.2 = Done found /\ v ∈ found.
Proof.
  intros H v.
  rewrite entry_step_reachable in H by (by eapply entry_step_done).
  destruct (candidate target d) eqn:Hc.
  - destruct (file_vars d.2) as [found| |] eqn:Hf; try done.
    case_bool_decide as Hne; injection H as <-; simpl.
    + rewrite elem_of_union. split.
      * intros [?|?]; [by left|right]. eauto.
      * intros [?|(found' & _ & [= <-] & ?)]; auto.
    + split; [by left|]. intros [?|(found' & _ & [= <-] & Hv)]; [done|].
      subst found. set_solver.
  - injection H as <-. split; [by left|]. by intros [?|(? & ? & _)].
Qed.

Lemma scan_steps_vars order target listing st st' :
  scan_steps order target listing st = Done st' ->
  forall v, v ∈ st'.2 <->
    v ∈ st.2 \/
    exists d found, d ∈ listing /\ candidate target d = true /\
                    file_vars d.2 = Done found /\ v ∈ found.
Proof.
  revert st. induction listing as [|d l IH]; intros st H v; simpl in H.
  - injection H as <-. split; [by left|].
    intros [?|(d & ? & Hd & _)]; [done|]. by apply elem_of_nil in Hd.
  - destruct (entry_step order target d st) as [st1| |] eqn:Hd; try done.
    rewrite (IH _ H v), (entry_step_vars _ _ _ _ _ Hd v). split.
    + intros [[?|(found & ? & ? & ?)]|(d' & found & ? & ?)]; [by left| |].
      * right. exists d, found. split; [left|done].
      * right. exists d', found. split; [by right|done].
    + intros [?|(d' & found & Hin & ? & ? & ?)]; [by left; left|].
      apply elem_of_cons in Hin as [->|Hin].
      * left; right. eauto.
      * right. exists d', found. eauto.
Qed.

(** C5: when the scan completes, the global set is the union of the
    match sets of the scanned files: a name is in it exactly when it is in
    the match set of some file the loop handed to
    [find_env_vars_in_file]. *)
Theorem global_set_is_union (w : World) (st : scan_state) :
  let target := target_of w in
  scan target w = (Done st, w) ->
  forall v, v ∈ st.2 <->
    exists d found, d ∈ listing_of w target /\ candidate target d = true /\
      find_env_vars_in_file d.2 w = (Done found, w) /\ v ∈ found.
Proof.
  intros target. rewrite scan_run. intros [= H] v.
  rewrite (scan_steps_vars _ _ _ _ _ H v). simpl. split.
  - intros [Hv|(d & found & ? & ? & Hf & ?)]; [set_solver|].
    exists d, found. by rewrite find_env_vars_in_file_run, Hf.
  - intros (d & found & ? & ? & Hf & ?). right. exists d, found.
    rewrite find_env_vars_in_file_run in Hf. injection Hf as Hf. done.
Qed.

Lemma valid_order_elements : valid_order elements.
Proof. by intros X. Qed.

End Aggregate.

Lemma global_set_is_union_witness :
  let w := world_project in
  scan (target_of w) w = (Done project_state, w) /\
  forall v, v ∈ project_state.2 <->
    exists d found, d ∈ listing_of w (target_of w) /\
      candidate (target_of w) d = true /\
      find_env_vars_in_file d.2 w = (Done found, w) /\ v ∈ found.
Proof.
  assert (scan (target_of world_project) world_project
          = (Done project_state, world_project)) as H.
  { rewrite scan_run. vm_compute. reflexivity. }
  split; [exact H|].
  exact (global_set_is_union world_project project_state H).
Defined.

(* ===================================================================== *)
(** * Sorting *)
(* ===================================================================== *)

Section Sorting.

Lemma str_leb_cons x a y b :
  str_leb (x :: a) (y :: b) = (x <? y) || ((x =? y) && str_leb a b).
Proof. done. Qed.

#[global] Instance str_le_total : Total str_le.
Proof.
  intros a. induction a as [|x a IH]; intros b; [by left|].
  destruct b as [|y b]; [by right|].
  unfold str_le in *. rewrite !str_leb_cons.
  destruct (IH b) as [->| ->];
    destruct (Z.ltb_spec x y), (Z.ltb_spec y x), (Z.eqb_spec x y),
      (Z.eqb_spec y x); simpl; auto; lia.
Qed.

#[global] Instance str_le_trans : Transitive str_le.
Proof.
  intros a. induction a as [|x a IH]; intros b c; [done|].
  destruct b as [|y b]; [done|]. destruct c as [|z c]; [done|].
  unfold str_le in *. rewrite !str_leb_cons.
  rewrite !orb_true_iff, !andb_true_iff, !Z.ltb_lt, !Z.eqb_eq.
  intros [?|[-> Hab]] [?|[-> Hbc]]; try (left; lia).
  right. split; [done|]. by apply (IH b c).
Qed.

#[global] Instance str_le_antisymm : AntiSymm (=) str_le.
Proof.
  intros a. induction a as [|x a IH]; intros b; [by destruct b|].
  destruct b as [|y b]; [done|].
  unfold str_le in *. rewrite !str_leb_cons.
  rewrite !orb_true_iff, !andb_true_iff, !Z.ltb_lt, !Z.eqb_eq.
  intros [?|[-> Hab]] [?|[? Hba]]; try lia.
  f_equal. by apply IH.
Qed.

#[global] Instance item_le_total : Total item_le.
Proof. intros a b. unfold item_le. apply str_le_total. Qed.

#[global] Instance item_le_trans : Transitive item_le.
Proof. intros a b c. unfold item_le. apply str_le_trans. Qed.

(** [sorted] does not depend on the order its argument comes in. *)
Lemma sorted_permutation l1 l2 : l1 ≡ₚ l2 -> sorted l1 = sorted l2.
Proof.
  intros H. unfold sorted.
  apply (Sorted_unique str_le); try apply Sorted_merge_sort; try apply _.
  by rewrite !merge_sort_Permutation.
Qed.

(** Nor do the sorted items of a dict: its keys are distinct. *)
Lemma sorted_items_permutation (m : gmap str (list str)) l1 l2 :
  l1 ≡ₚ map_to_list m -> l2 ≡ₚ map_to_list m ->
  sorted_items l1 = sorted_items l2.
Proof.
  intros H1 H2. unfold sorted_items.
  apply (Sorted_unique_strong item_le); try apply Sorted_merge_sort; try apply _.
  - intros [k1 v1] [k2 v2]. rewrite !merge_sort_Permutation, H1, H2.
    rewrite !elem_of_map_to_list. unfold item_le. simpl.
    intros Hk1 Hk2 Hle1 Hle2.
    assert (k1 = k2) as -> by by apply (anti_symm str_le).
    congruence.
  - by rewrite !merge_sort_Permutation, H1, H2.
Qed.

End Sorting.

(* ===================================================================== *)
(** * Determinism *)
(* ===================================================================== *)

Section Determinism.

Lemma valid_order_agree o1 o2 X :
  valid_order o1 -> valid_order o2 -> sorted (o1 X) = sorted (o2 X).
Proof. intros H1 H2. apply sorted_permutation. by rewrite (H1 X), (H2 X). Qed.

Lemma entry_step_alt order target d st :
  entry_step order target d st =
  match entry_found target d with
  | Done found => Done (add_found order d found st)
  | Exit c => Exit c
  | Raise e => Raise e
  end.
Proof.
  destruct d as [rel e]. unfold entry_step, entry_found, add_found.
  cbn [fst snd].
  destruct e as [r| |]; [| |done];
    (destruct (candidate target _);
     [ destruct (file_vars _) as [found| |]; try done;
       by destruct (bool_decide (found ≠ ∅))
     | by rewrite bool_decide_eq_false_2 by (intros H; by apply H) ]).
Qed.

Lemma entry_found_raises target d :
  (exists found, entry_found target d = Done found) \/
  entry_found target d = Raise OSError.
Proof.
  unfold entry_found.
  destruct d as [rel [[]| |]]; cbn [snd]; eauto;
    destruct (candidate target _); simpl; eauto.
Qed.

Lemma entry_step_order o1 o2 target d st :
  valid_order o1 -> valid_order o2 ->
  entry_step o1 target d st = entry_step o2 target d st.
Proof.
  intros H1 H2. rewrite !entry_step_alt.
  destruct (entry_found target d) as [found| |]; try done.
  unfold add_found. by rewrite (valid_order_agree o1 o2 found H1 H2).
Qed.

Lemma scan_steps_order o1 o2 target listing st :
  valid_order o1 -> valid_order o2 ->
  scan_steps o1 target listing st = scan_steps o2 target listing st.
Proof.
  intros H1 H2. revert st. induction listing as [|d l IH]; intros st; [done|].
  simpl. rewrite (entry_step_order o1 o2) by done.
  destruct (entry_step o2 target d st); auto.
Qed.

Lemma add_found_comm order d1 d2 f1 f2 st :
  rel_key d1.1 <> rel_key d2.1 ->
  add_found order d1 f1 (add_found order d2 f2 st)
  = add_found order d2 f2 (add_found order d1 f1 st).
Proof.
  intros Hne. unfold add_found.
  destruct (bool_decide (f1 ≠ ∅)), (bool_decide (f2 ≠ ∅)); try done.
  simpl. f_equal; [by apply insert_insert_ne|].
  by rewrite <- !(assoc_L (∪)), (comm_L (∪) f1 f2).
Qed.

Lemma scan_steps_swap order target d1 d2 l st :
  rel_key d1.1 <> rel_key d2.1 ->
  scan_steps order target (d1 :: d2 :: l) st
  = scan_steps order target (d2 :: d1 :: l) st.
Proof.
  intros Hne. cbn [scan_steps]. rewrite (entry_step_alt _ _ d1 st).
  rewrite (entry_step_alt _ _ d2 st).
  destruct (entry_found_raises target d1) as [[f1 H1]|H1],
           (entry_found_raises target d2) as [[f2 H2]|H2];
    rewrite H1, H2; cbv iota.
  - rewrite !entry_step_alt, H1, H2. by rewrite add_found_comm.
  - by rewrite entry_step_alt, H2.
  - by rewrite entry_step_alt, H1.
  - done.
Qed.

Lemma scan_steps_permutation order target l1 l2 :
  l1 ≡ₚ l2 -> distinct_paths l1 ->
  forall st, scan_steps order target l1 st = scan_steps order target l2 st.
Proof.
  unfold distinct_paths.
  induction 1 as [|d l l' Hp IH|d1 d2 l|l l' l'' Hp IH Hp' IH'];
    intros Hnd st.
  - done.
  - simpl in *. apply NoDup_cons in Hnd as [_ Hnd].
    destruct (entry_step order target d st); auto.
  - apply scan_steps_swap. simpl in Hnd.
    apply NoDup_cons in Hnd as [Hnd _]. intros Heq. apply Hnd.
    rewrite Heq. left.
  - rewrite IH by done. apply IH'. by rewrite <- Hp.
Qed.

Lemma vars_in_order env o1 o2 X :
  valid_order o1 -> valid_order o2 ->
  vars_in env (o1 X) ≡ₚ vars_in env (o2 X).
Proof. intros H1 H2. unfold vars_in. by rewrite (H1 X), (H2 X). Qed.

Lemma environment_text_order env o1 o2 X :
  valid_order o1 -> valid_order o2 ->
  environment_text o1 env X = environment_text o2 env X.
Proof.
  intros H1 H2. unfold environment_text.
  pose proof (vars_in_order env o1 o2 X H1 H2) as Hp.
  rewrite (sorted_permutation _ _ Hp).
  rewrite (list_to_set_perm_L _ _ Hp).
  by rewrite (valid_order_agree o1 o2 _ H1 H2).
Qed.

Lemma report_text_order w1 w2 st :
  environ w1 = environ w2 ->
  valid_order (set_order w1) -> valid_order (set_order w2) ->
  valid_dict_order (dict_order w1) -> valid_dict_order (dict_order w2) ->
  report_text w1 st = report_text w2 st.
Proof.
  intros Henv Hs1 Hs2 Hd1 Hd2. unfold report_text, found_text.
  rewrite (sorted_items_permutation st.1 _ _ (Hd1 st.1) (Hd2 st.1)).
  rewrite (valid_order_agree _ _ st.2 Hs1 Hs2).
  by rewrite Henv, (environment_text_order _ _ _ _ Hs1 Hs2).
Qed.

(** C9: two runs with the same arguments and the same environment, on a
    directory that holds the same entries, print the same text and exit
    with the same status, in whatever order the directory lists its
    entries and in whatever order each process iterates its sets and its
    dict. *)
Theorem scan_is_deterministic (w1 w2 : World) :
  argv w1 = argv w2 -> environ w1 = environ w2 -> stdout w1 = stdout w2 ->
  same_entries (fs w1 !! Pathlib.to_str (target_of w1))
               (fs w2 !! Pathlib.to_str (target_of w1)) ->
  distinct_paths (listing_of w1 (target_of w1)) ->
  valid_order (set_order w1) -> valid_order (set_order w2) ->
  valid_dict_order (dict_order w1) -> valid_dict_order (dict_order w2) ->
  (run w1).1 = (run w2).1 /\ stdout (run w1).2 = stdout (run w2).2.
Proof.
  intros Hargv Henv Hout Hfs Hnd Hs1 Hs2 Hd1 Hd2. unfold run.
  destruct (decide (length (argv w1) < 2)%nat) as [Hlen|Hlen].
  - rewrite !main_no_argument by congruence. cbv beta iota. cbn [fst snd].
    by rewrite !stdout_write, Hout.
  - rewrite !main_with_argument by (rewrite <- ?Hargv; lia).
    unfold scan_and_report.
    assert (target_of w2 = target_of w1) as -> by (unfold target_of; congruence).
    unfold listing_of in *.
    destruct (fs w1 !! Pathlib.to_str (target_of w1)) as [[l1| |]|],
             (fs w2 !! Pathlib.to_str (target_of w1)) as [[l2| |]|];
      simpl in Hfs; try done.
    + rewrite (scan_steps_order (set_order w2) (set_order w1)) by done.
      rewrite <- (scan_steps_permutation _ _ l1 l2) by done.
      destruct (scan_steps _ _ _ _) as [st| |]; cbn [fst snd]; try done.
      by rewrite !stdout_write, Hout, (report_text_order w1 w2).
    + cbn [scan_steps fst snd].
      by rewrite !stdout_write, Hout, (report_text_order w1 w2).
    + cbn [fst snd]. by rewrite !stdout_write, Hout.
Qed.

Lemma scan_is_deterministic_witness :
  (run world_project).1 = (run world_project_again).1 /\
  stdout (run world_project).2 = stdout (run world_project_again).2.
Proof.
  apply (scan_is_deterministic world_project world_project_again);
    try reflexivity.
  - vm_compute. apply Permutation_rev.
  - unfold distinct_paths. vm_compute.
    repeat (constructor; [rewrite ?elem_of_cons, ?elem_of_nil; intuition discriminate|]).
    constructor.
  - intros X. reflexivity.
  - intros X. simpl. apply reverse_Permutation.
  - intros m. reflexivity.
  - intros m. simpl. apply reverse_Permutation.
Defined.

End Determinism.

(* ===================================================================== *)
(** * Shell references to one name *)
(* ===================================================================== *)

Section ShellReferences.


Lemma slice_app a b : slice (a ++ b) b = a.
Proof.
  unfold slice. rewrite length_app.
  replace (length a + length b - length b)%nat with (length a) by lia.
  apply take_app_length.
Qed.

Lemma lower_dollar c : lower c = 36 -> c = 36.
Proof.
  unfold lower.
  destruct (Z.leb_spec 65 c), (Z.leb_spec c 90); simpl;
    destruct (Z.eqb_spec c 0x130), (Z.eqb_spec c 0x212A); lia.
Qed.

Lemma match_shell_not_dollar c r :
  c <> 36 -> match_at pat_shell (c :: r) = None.
Proof.
  intros Hc. unfold match_at, pat_shell. cbn [before pieces].
  assert (atom_match (Chr 36) c = false) as ->; [|done].
  unfold atom_match, ci_eq. change (lower 36) with 36.
  change (fixes 36) with (@nil Z). simpl.
  rewrite orb_false_r. apply Z.eqb_neq. intros H. by apply Hc, lower_dollar.
Qed.








End ShellReferences.

(* ===================================================================== *)
(** * The per-file mapping *)
(* ===================================================================== *)

Section PerFile.

Lemma entry_found_nonempty target d found :
  found <> ∅ ->
  entry_found target d = Done found <->
  candidate target d = true /\ file_vars d.2 = Done found.
Proof.
  intros Hne. unfold entry_found. destruct d as [rel e]. cbn [snd].
  destruct e as [r| |].
  - destruct (candidate target _).
    + split; [by intros ->|by intros [_ ->]].
    + split; [intros [= <-]; done|by intros [? _]].
  - split; [intros [= <-]; done|by intros [? _]].
  - split; [done|by intros [? _]].
Qed.

Lemma add_found_dom order d found st k :
  k ∈ dom (add_found order d found st).1 <->
  k ∈ dom st.1 \/ (found <> ∅ /\ rel_key d.1 = k).
Proof.
  unfold add_found. case_bool_decide as Hne; simpl.
  - rewrite dom_insert_L, elem_of_union, elem_of_singleton. split.
    + intros [->|?]; [by right|by left].
    + intros [?|[_ <-]]; [by right|by left].
  - split; [by left|]. intros [?|[? _]]; done.
Qed.

Lemma add_found_lookup order d found st k vars :
  (add_found order d found st).1 !! k = Some vars ->
  st.1 !! k = Some vars \/
  (found <> ∅ /\ rel_key d.1 = k /\ vars = sorted (order found)).
Proof.
  unfold add_found. case_bool_decide as Hne; simpl; [|by left].
  destruct (decide (rel_key d.1 = k)) as [<-|Hk].
  - rewrite lookup_insert_eq. intros [= <-]. by right.
  - rewrite lookup_insert_ne by done. by left.
Qed.

Lemma scan_steps_keys order target listing : forall st st',
  scan_steps order target listing st = Done st' ->
  forall k, k ∈ dom st'.1 <->
    k ∈ dom st.1 \/
    exists d found, d ∈ listing /\ entry_found target d = Done found /\
                    found <> ∅ /\ rel_key d.1 = k.
Proof.
  induction listing as [|d l IH]; intros st st' H k; simpl in H.
  - injection H as <-. split; [by left|].
    intros [?|(d & ? & Hd & _)]; [done|]. by apply elem_of_nil in Hd.
  - rewrite entry_step_alt in H.
    destruct (entry_found target d) as [found| |] eqn:Hd; try done.
    rewrite (IH _ _ H k), add_found_dom. split.
    + intros [[?|[? ?]]|(d' & found' & ? & ?)]; [by left| |].
      * right. exists d, found. split; [left|done].
      * right. exists d', found'. split; [by right|done].
    + intros [?|(d' & found' & Hin & Hf & Hne & Hk)]; [by left; left|].
      apply elem_of_cons in Hin as [->|Hin].
      * left; right. rewrite Hd in Hf. injection Hf as ->. done.
      * right. exists d', found'. done.
Qed.

Lemma scan_steps_values order target listing : forall st st',
  scan_steps order target listing st = Done st' ->
  forall k vars, st'.1 !! k = Some vars ->
    st.1 !! k = Some vars \/
    exists d found, d ∈ listing /\ entry_found target d = Done found /\
                    found <> ∅ /\ rel_key d.1 = k /\
                    vars = sorted (order found).
Proof.
  induction listing as [|d l IH]; intros st st' H k vars Hk; simpl in H.
  - injection H as <-. by left.
  - rewrite entry_step_alt in H.
    destruct (entry_found target d) as [found| |] eqn:Hd; try done.
    destruct (IH _ _ H k vars Hk) as [Hst|(d' & found' & ? & ?)].
    + apply add_found_lookup in Hst as [?|(? & ? & ?)]; [by left|].
      right. exists d, found. split; [left|done].
    + right. exists d', found'. split; [by right|done].
Qed.

(** An entry whose key no later entry has keeps its place in the mapping. *)
Lemma scan_steps_keeps order target listing : forall st st' k,
  scan_steps order target listing st = Done st' ->
  k ∉ map (fun d => rel_key d.1) listing ->
  st'.1 !! k = st.1 !! k.
Proof.
  induction listing as [|d l IH]; intros st st' k H Hk; simpl in H.
  - by injection H as <-.
  - rewrite entry_step_alt in H.
    destruct (entry_found target d) as [found| |]; try done.
    simpl in Hk. apply not_elem_of_cons in Hk as [Hne Hk].
    rewrite (IH _ _ _ H Hk). unfold add_found.
    case_bool_decide; [|done]. simpl. by rewrite lookup_insert_ne.
Qed.

Lemma scan_steps_files order target listing : forall st st' d found,
  scan_steps order target listing st = Done st' ->
  distinct_paths listing ->
  d ∈ listing -> entry_found target d = Done found -> found <> ∅ ->
  st'.1 !! rel_key d.1 = Some (sorted (order found)).
Proof.
  unfold distinct_paths.
  induction listing as [|d0 l IH]; intros st st' d found H Hnd Hin Hf Hne.
  { by apply elem_of_nil in Hin. }
  simpl in H, Hnd. apply NoDup_cons in Hnd as [Hfresh Hnd].
  rewrite entry_step_alt in H.
  destruct (entry_found target d0) as [found0| |] eqn:Hd0; try done.
  apply elem_of_cons in Hin as [->|Hin].
  - rewrite (scan_steps_keeps _ _ _ _ _ _ H Hfresh).
    rewrite Hd0 in Hf. injection Hf as ->. unfold add_found.
    rewrite bool_decide_eq_true_2 by done. simpl. by rewrite lookup_insert_eq.
  - by apply (IH _ _ _ _ H).
Qed.

Lemma sorted_order_facts (order : gset str -> list str) (found : gset str) :
  valid_order order -> found <> ∅ ->
  (forall v, v ∈ sorted (order found) <-> v ∈ found) /\
  sorted (order found) <> [] /\
  NoDup (sorted (order found)) /\
  Sorted str_le (sorted (order found)).
Proof.
  intros Hord Hne.
  assert (sorted (order found) ≡ₚ elements found) as Hp.
  { unfold sorted. by rewrite merge_sort_Permutation. }
  split; [|split; [|split]].
  - intros v. by rewrite Hp, elem_of_elements.
  - intros Hnil. rewrite Hnil in Hp. symmetry in Hp.
    apply Permutation_nil_r, elements_empty_inv in Hp.
    apply Hne. by apply leibniz_equiv.
  - rewrite Hp. apply NoDup_elements.
  - apply Sorted_merge_sort. apply _.
Qed.

(** X1: when the scan completes, the keys of the per-file mapping are
    exactly the relative paths of the entries that passed the filters of
    lines 55-56 and whose match set is not empty. *)
Theorem per_file_keys (w : World) (st : scan_state) :
  let target := target_of w in
  scan target w = (Done st, w) ->
  forall k, k ∈ dom st.1 <->
    exists d found, d ∈ listing_of w target /\ candidate target d = true /\
      find_env_vars_in_file d.2 w = (Done found, w) /\ found <> ∅ /\
      k = rel_key d.1.
Proof.
  intros target. rewrite scan_run. intros [= H] k.
  rewrite (scan_steps_keys _ _ _ _ _ H k). simpl. rewrite dom_empty_L. split.
  - intros [Hk|(d & found & ? & Hf & Hne & <-)]; [set_solver|].
    apply entry_found_nonempty in Hf as [? Hf]; [|done].
    exists d, found. by rewrite find_env_vars_in_file_run, Hf.
  - intros (d & found & ? & ? & Hf & Hne & ->). right. exists d, found.
    rewrite find_env_vars_in_file_run in Hf. injection Hf as Hf.
    by rewrite entry_found_nonempty.
Qed.

Lemma per_file_keys_witness :
  lit "app.py" ∈ dom project_state.1 <->
    exists d found, d ∈ listing_of world_project (target_of world_project) /\
      candidate (target_of world_project) d = true /\
      find_env_vars_in_file d.2 world_project = (Done found, world_project) /\
      found <> ∅ /\ lit "app.py" = rel_key d.1.
Proof.
  apply (per_file_keys world_project project_state).
  rewrite scan_run. vm_compute. reflexivity.
Defined.

(** X2: when the scan completes, every list in the per-file mapping
    belongs to a scanned entry with that relative path: it holds exactly
    the names of that entry's match set, each once, in ascending order,
    and it is not empty. *)
Theorem per_file_lists (w : World) (st : scan_state) :
  let target := target_of w in
  scan target w = (Done st, w) ->
  valid_order (set_order w) ->
  forall k vars, st.1 !! k = Some vars ->
    exists d found, d ∈ listing_of w target /\ candidate target d = true /\
      find_env_vars_in_file d.2 w = (Done found, w) /\ rel_key d.1 = k /\
      (forall v, v ∈ vars <-> v ∈ found) /\
      vars <> [] /\ NoDup vars /\ Sorted str_le vars.
Proof.
  intros target. rewrite scan_run. intros [= H] Hord k vars Hk.
  destruct (scan_steps_values _ _ _ _ _ H k vars Hk)
    as [Hk0|(d & found & Hin & Hf & Hne & Hkey & ->)].
  { simpl in Hk0. by rewrite lookup_empty in Hk0. }
  apply entry_found_nonempty in Hf as [Hc Hf]; [|done].
  exists d, found. rewrite find_env_vars_in_file_run, Hf.
  destruct (sorted_order_facts (set_order w) found Hord Hne) as (? & ? & ? & ?).
  done.
Qed.

Lemma per_file_lists_witness :
  exists d found,
    d ∈ listing_of world_project (target_of world_project) /\
    candidate (target_of world_project) d = true /\
    find_env_vars_in_file d.2 world_project = (Done found, world_project) /\
    rel_key d.1 = lit "app.py" /\
    (forall v, v ∈ [lit "FOO"; lit "HOME"; lit "PATH"] <-> v ∈ found) /\
    [lit "FOO"; lit "HOME"; lit "PATH"] <> [] /\
    NoDup [lit "FOO"; lit "HOME"; lit "PATH"] /\
    Sorted str_le [lit "FOO"; lit "HOME"; lit "PATH"].
Proof.
  apply (per_file_lists world_project project_state).
  - rewrite scan_run. vm_compute. reflexivity.
  - intros X. reflexivity.
  - vm_compute. reflexivity.
Defined.

(** X3: when the scan completes on a directory that lists no relative
    path twice, the two parts of the report agree: a name is in the global
    set exactly when it is in the list of some file of the per-file
    mapping. *)
Theorem report_sections_agree (w : World) (st : scan_state) :
  let target := target_of w in
  scan target w = (Done st, w) ->
  valid_order (set_order w) ->
  distinct_paths (listing_of w target) ->
  forall v, v ∈ st.2 <-> exists k vars, st.1 !! k = Some vars /\ v ∈ vars.
Proof.
  intros target. rewrite scan_run. intros [= H] Hord Hnd v.
  rewrite (scan_steps_vars _ _ _ _ _ H v). simpl. split.
  - intros [Hv|(d & found & Hin & Hc & Hf & Hv)]; [set_solver|].
    assert (found <> ∅) as Hne by set_solver.
    exists (rel_key d.1), (sorted (set_order w found)). split.
    + apply (scan_steps_files _ _ _ _ _ d found H); try done.
      by apply entry_found_nonempty.
    + by apply (sorted_order_facts (set_order w) found Hord Hne).
  - intros (k & vars & Hk & Hv). right.
    destruct (scan_steps_values _ _ _ _ _ H k vars Hk)
      as [Hk0|(d & found & Hin & Hf & Hne & Hkey & ->)].
    { simpl in Hk0. by rewrite lookup_empty in Hk0. }
    apply entry_found_nonempty in Hf as [Hc Hf]; [|done].
    exists d, found. split; [done|]. split; [done|]. split; [done|].
    by apply (sorted_order_facts (set_order w) found Hord Hne).
Qed.

Lemma report_sections_agree_witness :
  lit "HOME" ∈ project_state.2 <->
    exists k vars, project_state.1 !! k = Some vars /\ lit "HOME" ∈ vars.
Proof.
  apply (report_sections_agree world_project project_state).
  - rewrite scan_run. vm_compute. reflexivity.
  - intros X. reflexivity.
  - unfold distinct_paths. vm_compute.
    repeat (constructor; [rewrite ?elem_of_cons, ?elem_of_nil; intuition discriminate|]).
    constructor.
Defined.

(** X4: a directory that lists more entries yields no fewer names and no
    fewer files: when both scans complete, the global set and the keys of
    the per-file mapping of the smaller listing are contained in those of
    the larger one. *)
Theorem more_entries_more_names (target : Path) (w w' : World)
    (st st' : scan_state) :
  scan target w = (Done st, w) ->
  scan target w' = (Done st', w') ->
  listing_of w target ⊆ listing_of w' target ->
  st.2 ⊆ st'.2 /\ dom st.1 ⊆ dom st'.1.
Proof.
  rewrite !scan_run. intros [= H] [= H'] Hsub. split.
  - intros v. rewrite (scan_steps_vars _ _ _ _ _ H v).
    rewrite (scan_steps_vars _ _ _ _ _ H' v). simpl.
    intros [?|(d & found & Hin & ?)]; [by left|].
    right. exists d, found. split; [by apply Hsub|done].
  - intros k. rewrite (scan_steps_keys _ _ _ _ _ H k).
    rewrite (scan_steps_keys _ _ _ _ _ H' k). simpl.
    intros [?|(d & found & Hin & ?)]; [by left|].
    right. exists d, found. split; [by apply Hsub|done].
Qed.

End PerFile.

Lemma more_entries_more_names_witness :
  project_state.2 ⊆ project_state_grown.2 /\
  dom project_state.1 ⊆ dom project_state_grown.1.
Proof.
  apply (more_entries_more_names (target_of world_project)
           world_project world_project_grown).
  - rewrite scan_run. vm_compute. reflexivity.
  - rewrite scan_run. vm_compute. reflexivity.
  - intros d Hd. vm_compute in Hd. vm_compute.
    repeat (apply elem_of_cons in Hd as [->|Hd];
            [repeat (first [left; reflexivity | right])|]).
    by apply elem_of_nil in Hd.
Defined.

(* ===================================================================== *)
(** * Entries that are passed over, and runs that end early *)
(* ===================================================================== *)

Section Filters.

Lemma component_in_to_str c p :
  c ∈ Pathlib.names p -> contains c (Pathlib.to_str p) = true.
Proof.
  intros Hc. rewrite to_str_named.
  - apply contains_app_r, (join_contains _ _ c); [done|].
    apply contains_spec. exists [], []. by rewrite app_nil_r.
  - intros E. rewrite E in Hc. by apply elem_of_nil in Hc.
Qed.

Lemma not_candidate_unchanged target d st w :
  d.2 <> Unreachable ->
  candidate target d = false -> scan_entry target d st w = (Done st, w).
Proof.
  intros Hu H. rewrite scan_entry_run. by rewrite entry_step_not_candidate.
Qed.

(** X5: an entry for which [is_file()] returns and one of whose path
    components is one of the names of [skip_dirs] (a file below
    node_modules, say) is passed over whatever it holds. *)
Theorem excluded_directory_skipped (target : Path) (d : dirent) (c : str)
    (st : scan_state) (w : World) :
  d.2 <> Unreachable ->
  c ∈ Pathlib.names (Pathlib.joinpath target d.1) ->
  c ∈ skip_dirs ->
  scan_entry target d st w = (Done st, w).
Proof.
  intros Hu Hc Hskip. apply not_candidate_unchanged; [done|]. unfold candidate.
  assert (skipped (Pathlib.joinpath target d.1) = true) as ->.
  { unfold skipped. apply existsb_exists. exists c.
    split; [by apply list_elem_of_In|by apply component_in_to_str]. }
  by rewrite andb_false_r.
Qed.

Lemma excluded_directory_skipped_witness :
  scan_entry (target_of world_project) vendored_entry (∅, ∅) world_project
  = (Done (∅, ∅), world_project).
Proof.
  apply (excluded_directory_skipped _ _ (lit "node_modules")).
  - discriminate.
  - vm_compute. right. left.
  - vm_compute. do 2 right. left.
Defined.

Lemma rfind_absent c s : c ∉ s -> rfind c s = None.
Proof.
  induction s as [|x s IH]; [done|]. intros H.
  apply not_elem_of_cons in H as [Hx Hs]. simpl. rewrite (IH Hs).
  destruct (Z.eqb_spec x c); [congruence|done].
Qed.

(** X6: a path whose name has no dot after its first character (README,
    Makefile, but also .gitignore and a file named .env) has the empty
    suffix, and an entry with such a path for which [is_file()] returns
    is passed over whatever it holds. *)
Theorem dotfile_not_scanned (target : Path) (d : dirent) (c : Z) (rest : str)
    (st : scan_state) (w : World) :
  Pathlib.name (Pathlib.joinpath target d.1) = c :: rest ->
  Pathlib.dot ∉ rest ->
  Pathlib.suffix (Pathlib.joinpath target d.1) = [] /\
  (d.2 <> Unreachable -> scan_entry target d st w = (Done st, w)).
Proof.
  intros Hname Hrest.
  assert (Pathlib.suffix (Pathlib.joinpath target d.1) = []) as Hs.
  { unfold Pathlib.suffix. rewrite Hname. simpl rfind.
    rewrite (rfind_absent _ _ Hrest). by destruct (c =? Pathlib.dot). }
  split; [done|]. intros Hu.
  apply not_candidate_unchanged; [done|]. unfold candidate.
  assert (suffix_listed (Pathlib.joinpath target d.1) = false) as ->.
  { unfold suffix_listed. by rewrite Hs. }
  by rewrite andb_false_r.
Qed.

Lemma dotfile_not_scanned_witness :
  Pathlib.suffix (Pathlib.joinpath (target_of world_project) gitignore_entry.1)
  = [] /\
  scan_entry (target_of world_project) gitignore_entry (∅, ∅) world_project
  = (Done (∅, ∅), world_project).
Proof.
  destruct (dotfile_not_scanned (target_of world_project) gitignore_entry
              Pathlib.dot (lit "gitignore") (∅, ∅) world_project) as [H1 H2].
  - reflexivity.
  - change (lit "gitignore") with [103; 105; 116; 105; 103; 110; 111; 114; 101].
    unfold Pathlib.dot. rewrite !elem_of_cons, elem_of_nil.
    intuition discriminate.
  - split; [exact H1|]. apply H2. discriminate.
Defined.

Lemma scan_steps_raises order target listing d : forall st,
  d ∈ listing -> candidate target d = true -> d.2 = Regular ReadOSError ->
  scan_steps order target listing st = Raise OSError.
Proof.
  induction listing as [|d0 l IH]; intros st Hin Hc Hd.
  { by apply elem_of_nil in Hin. }
  simpl. rewrite entry_step_alt.
  apply elem_of_cons in Hin as [<-|Hin].
  - unfold entry_found. by rewrite Hc, Hd.
  - destruct (entry_found_raises target d0) as [[f ->]| ->]; [|done].
    by apply IH.
Qed.

(** X7: only PermissionError is caught around the read: when a scanned
    file fails with any other OSError the exception leaves [main], so the
    run prints nothing, not even the names found before, and the process
    exits with status 1. *)
Theorem other_error_aborts (w : World) (d : dirent) :
  (2 <= length (argv w))%nat ->
  d ∈ listing_of w (target_of w) ->
  candidate (target_of w) d = true ->
  d.2 = Regular ReadOSError ->
  main w = (Raise OSError, w) /\ run w = (1, w).
Proof.
  intros Hlen Hin Hc Hd. unfold run. rewrite main_with_argument by done.
  unfold scan_and_report. rewrite (scan_steps_raises _ _ _ d) by done.
  unfold listing_of in Hin.
  destruct (fs w !! Pathlib.to_str (target_of w)) as [[l| |]|]; [done|..];
    by apply elem_of_nil in Hin.
Qed.

Lemma other_error_aborts_witness :
  main world_broken = (Raise OSError, world_broken) /\
  run world_broken = (1, world_broken).
Proof.
  apply (other_error_aborts world_broken broken_entry).
  - simpl. lia.
  - vm_compute. right. left.
  - reflexivity.
  - reflexivity.
Defined.

(** X8: an argument that names something that exists but is not a
    directory is not an error: nothing is scanned, the report of an empty
    scan is printed (zero names, zero files, no section for missing
    names) and the process exits with status 0. *)
Theorem file_argument_reports_nothing (w : World) :
  (2 <= length (argv w))%nat ->
  fs w !! Pathlib.to_str (target_of w) = Some NonDirectory ->
  valid_order (set_order w) -> valid_dict_order (dict_order w) ->
  scan (target_of w) w = (Done (∅, ∅), w) /\
  run w = (0, write w empty_report).
Proof.
  intros Hlen Hfs Hs Hd.
  assert (listing_of w (target_of w) = []) as Hl.
  { unfold listing_of. by rewrite Hfs. }
  split.
  - by rewrite scan_run, Hl.
  - unfold run. rewrite main_with_argument by done.
    rewrite Hfs. unfold scan_and_report.
    rewrite Hl. cbn [scan_steps]. by rewrite report_text_empty.
Qed.

Lemma file_argument_reports_nothing_witness :
  scan (target_of world_on_file) world_on_file = (Done (∅, ∅), world_on_file) /\
  run world_on_file = (0, write world_on_file empty_report).
Proof.
  apply (file_argument_reports_nothing world_on_file).
  - simpl. lia.
  - reflexivity.
  - intros X. reflexivity.
  - intros m. reflexivity.
Defined.

(** X9: of the arguments only the first one after the program name is
    used: two runs that differ in the program name and in further
    arguments but agree on that one, in the same world, exit with the same
    status and print the same text. *)
Theorem only_first_argument_used (w1 w2 : World) :
  (2 <= length (argv w1))%nat -> (2 <= length (argv w2))%nat ->
  nth 1 (argv w1) [] = nth 1 (argv w2) [] ->
  fs w1 = fs w2 -> environ w1 = environ w2 ->
  set_order w1 = set_order w2 -> dict_order w1 = dict_order w2 ->
  stdout w1 = stdout w2 ->
  (run w1).1 = (run w2).1 /\ stdout (run w1).2 = stdout (run w2).2.
Proof.
  intros Hl1 Hl2 Harg Hfs Henv Hso Hdo Hout. unfold run.
  rewrite !main_with_argument by done. unfold scan_and_report.
  assert (target_of w2 = target_of w1) as -> by (unfold target_of; congruence).
  unfold listing_of, report_text, found_text.
  rewrite <- Hfs, <- Henv, <- Hso, <- Hdo.
  destruct (fs w1 !! Pathlib.to_str (target_of w1)) as [[l| |]|];
    cbn [fst snd].
  - destruct (scan_steps _ _ _ _); cbn [fst snd]; try done.
    by rewrite !stdout_write, Hout.
  - cbn [scan_steps fst snd]. by rewrite !stdout_write, Hout.
  - done.
  - by rewrite !stdout_write, Hout.
Qed.

Lemma only_first_argument_used_witness :
  (run world_on_file).1 = (run world_on_file_more_arguments).1 /\
  stdout (run world_on_file).2 = stdout (run world_on_file_more_arguments).2.
Proof.
  apply (only_first_argument_used world_on_file world_on_file_more_arguments);
    try reflexivity; simpl; lia.
Defined.

End Filters.

(* ===================================================================== *)
(** * What is captured *)
(* ===================================================================== *)

Section Captures.

Lemma star_split {R} a (k : str -> option R) s r :
  star a k s = Some r ->
  exists g s', s = g ++ s' /\ k s' = Some r /\
               Forall (fun ch => atom_match a ch = true) g.
Proof.
  induction s as [|ch s IH]; simpl.
  { intros H. by exists [], []. }
  destruct (atom_match a ch) eqn:Hch; [|intros H; by exists [], (ch :: s)].
  destruct (star a k s) as [r'|] eqn:E; [|intros H; by exists [], (ch :: s)].
  intros [= ->]. destruct (IH eq_refl) as (g & s' & -> & ? & ?).
  exists (ch :: g), s'. split; [done|]. split; [done|]. by constructor.
Qed.

(** A match of [ps] consumes a prefix of the input, at least
    [min_length ps] characters long, each of them matched by an atom of
    [ps]. *)
Lemma pieces_split {R} (P : Z -> Prop) ps : forall s (k : str -> option R) r,
  Forall (fun p => forall ch, atom_match (piece_atom p) ch = true -> P ch) ps ->
  pieces ps s k = Some r ->
  exists g s', s = g ++ s' /\ k s' = Some r /\ Forall P g /\
               (min_length ps <= length g)%nat.
Proof.
  induction ps as [|p ps IH]; intros s k r HP H; simpl in H.
  { exists [], s. repeat split; [done|constructor|simpl; lia]. }
  apply Forall_cons in HP as [Hp HP].
  destruct p as [a|a|a|a]; simpl in Hp |- *.
  - destruct s as [|ch s]; [done|].
    destruct (atom_match a ch) eqn:Hch; [|done].
    destruct (IH _ _ _ HP H) as (g & s' & -> & ? & ? & ?).
    exists (ch :: g), s'. repeat split; [done|constructor; auto|simpl; lia].
  - assert (pieces ps s k = Some r ->
            exists g s', s = g ++ s' /\ k s' = Some r /\ Forall P g /\
                         (min_length ps <= length g)%nat) as Hskip.
    { intros H'. by apply IH. }
    destruct s as [|ch s]; [by apply Hskip|].
    destruct (atom_match a ch) eqn:Hch; [|by apply Hskip].
    destruct (pieces ps s k) as [r'|] eqn:E; [|by apply Hskip].
    injection H as ->. destruct (IH _ _ _ HP E) as (g & s' & -> & ? & ? & ?).
    exists (ch :: g), s'. repeat split; [done|constructor; auto|simpl; lia].
  - apply star_split in H as (g1 & s1 & -> & H & Hg1).
    destruct (IH _ _ _ HP H) as (g & s' & -> & ? & ? & ?).
    exists (g1 ++ g), s'. rewrite <- app_assoc.
    repeat split; [done| |rewrite length_app; lia].
    apply Forall_app. split; [|done].
    eapply Forall_impl; [exact Hg1|]. auto.
  - destruct s as [|ch s]; [done|].
    destruct (atom_match a ch) eqn:Hch; [|done].
    apply star_split in H as (g1 & s1 & -> & H & Hg1).
    destruct (IH _ _ _ HP H) as (g & s' & -> & ? & ? & ?).
    exists (ch :: g1 ++ g), s'. rewrite <- app_comm_cons, <- app_assoc.
    repeat split; [done| |simpl; rewrite length_app; lia].
    constructor; [auto|]. apply Forall_app. split; [|done].
    eapply Forall_impl; [exact Hg1|]. auto.
Qed.

Lemma match_at_split (P : Z -> Prop) p s g rest :
  Forall (fun pc => forall ch, atom_match (piece_atom pc) ch = true -> P ch)
         (group1 p) ->
  match_at p s = Some (g, rest) ->
  (exists pre post, s = pre ++ g ++ post) /\ Forall P g /\
  (min_length (group1 p) <= length g)%nat.
Proof.
  intros HP. unfold match_at. intros H.
  apply (pieces_split (fun _ => True)) in H as (g0 & s1 & -> & H & _);
    [|by apply Forall_forall].
  apply (pieces_split P) in H as (g1 & s2 & -> & H & Hg1 & Hlen); [|done].
  rewrite slice_app in H.
  apply (pieces_split (fun _ => True)) in H as (g2 & s3 & -> & [= <- <-] & _);
    [|by apply Forall_forall].
  split; [|done]. by exists g0, (g2 ++ s3).
Qed.

Lemma findall_from_split (P : Z -> Prop) p s : forall skip g,
  Forall (fun pc => forall ch, atom_match (piece_atom pc) ch = true -> P ch)
         (group1 p) ->
  g ∈ findall_from p skip s ->
  (exists pre post, s = pre ++ g ++ post) /\ Forall P g /\
  (min_length (group1 p) <= length g)%nat.
Proof.
  induction s as [|c s IH]; intros skip g HP Hg; simpl in Hg.
  { by apply elem_of_nil in Hg. }
  assert (forall n, g ∈ findall_from p n s ->
            (exists pre post, c :: s = pre ++ g ++ post) /\ Forall P g /\
            (min_length (group1 p) <= length g)%nat) as Htail.
  { intros n Hn. destruct (IH n g HP Hn) as ((pre & post & ->) & ? & ?).
    split; [|done]. by exists (c :: pre), post. }
  destruct skip as [|n]; [|by apply (Htail n)].
  destruct (match_at p (c :: s)) as [[g' rest]|] eqn:E; [|by apply (Htail 0%nat)].
  apply elem_of_cons in Hg as [->|Hg]; [|by apply (Htail _ Hg)].
  by apply (match_at_split P p _ _ rest).
Qed.

Lemma elem_of_extract_variables v content :
  v ∈ extract_variables content <->
  exists p, p ∈ ENV_PATTERNS /\ v ∈ findall p content.
Proof.
  unfold extract_variables, ENV_PATTERNS. cbn [fold_left].
  rewrite !elem_of_union, !elem_of_list_to_set. split.
  - intros [[[[H|H]|H]|H]|H]; [set_solver| | | |].
    + exists pat_getenv. split; [left|done].
    + exists pat_environ. split; [right; left|done].
    + exists pat_shell. split; [do 2 right; left|done].
    + exists pat_node. split; [do 3 right; left|done].
  - intros (p & Hp & Hv).
    repeat (apply elem_of_cons in Hp as [->|Hp]; [tauto|]).
    by apply elem_of_nil in Hp.
Qed.

Lemma group_atoms_no_quote a ch :
  a = not_quote \/ a = name_start \/ a = name_char ->
  atom_match a ch = true -> ch <> dq /\ ch <> sq.
Proof.
  intros [->|[->| ->]] H; split; intros ->; vm_compute in H; discriminate.
Qed.

Lemma captured_no_quote p :
  p ∈ ENV_PATTERNS ->
  Forall (fun pc => forall ch, atom_match (piece_atom pc) ch = true ->
                               ch <> dq /\ ch <> sq) (group1 p) /\
  (1 <= min_length (group1 p))%nat.
Proof.
  unfold ENV_PATTERNS. rewrite !elem_of_cons, elem_of_nil.
  intros [->|[->|[->|[->|[]]]]]; (split; [|simpl; lia]);
    unfold pat_getenv, pat_environ, pat_shell, pat_node; cbn [group1];
    repeat (apply Forall_cons; split;
            [intros ch; cbn [piece_atom]; apply group_atoms_no_quote; tauto|]);
    by apply Forall_nil.
Qed.

(** X10: matching is lexical: every name of a match set stands in the
    text as it is, in the case it is written in; it is not empty and holds
    no quote character. *)
Theorem names_are_lexical (content v : str) :
  v ∈ extract_variables content ->
  (exists pre post, content = pre ++ v ++ post) /\
  contains v content = true /\
  v <> [] /\ (dq ∉ v) /\ (sq ∉ v).
Proof.
  intros Hv. apply elem_of_extract_variables in Hv as (p & Hp & Hv).
  destruct (captured_no_quote p Hp) as [HP Hmin].
  destruct (findall_from_split _ p content 0%nat v HP Hv)
    as (Hsub & Hchars & Hlen).
  split; [done|]. split; [by apply contains_spec|].
  rewrite Forall_forall in Hchars. split; [|split].
  - intros ->. simpl in Hlen. lia.
  - intros H. by destruct (Hchars _ H).
  - intros H. by destruct (Hchars _ H).
Qed.

Lemma names_are_lexical_witness :
  contains (lit "db_url") four_references = true /\
  lit "db_url" <> [] /\ (dq ∉ lit "db_url") /\ (sq ∉ lit "db_url").
Proof.
  destruct (names_are_lexical four_references (lit "db_url"))
    as (_ & H1 & H2 & H3 & H4).
  - vm_compute. reflexivity.
  - done.
Defined.

(** Decide [atom_match] where the character is a numeral. *)
Ltac eval_atoms :=
  repeat match goal with
  | |- context [atom_match ?a (Zpos ?p)] =>
    let b := eval vm_compute in (atom_match a (Zpos p)) in
    change (atom_match a (Zpos p)) with b; cbv iota
  end.

Lemma lower_non_letter x c : ~ (97 <= x <= 122) -> lower c = x -> c = x.
Proof.
  unfold lower.
  destruct (Z.leb_spec 65 c), (Z.leb_spec c 90); simpl;
    destruct (Z.eqb_spec c 0x130), (Z.eqb_spec c 0x212A); lia.
Qed.

(** A pattern character that is no letter matches itself alone. *)
Lemma chr_match_exact x ch :
  ~ (97 <= x <= 122) -> lower x = x -> fixes x = [] ->
  atom_match (Chr x) ch = true -> ch = x.
Proof.
  intros Hx Hl Hf. unfold atom_match, ci_eq. rewrite Hl, Hf. simpl.
  rewrite orb_false_r, Z.eqb_eq. by apply lower_non_letter.
Qed.

Lemma not_quote_match ch :
  ch <> dq -> ch <> sq -> atom_match not_quote ch = true.
Proof.
  intros Hd Hs.
  destruct (atom_match quote ch) eqn:E.
  - exfalso. unfold atom_match, quote, in_ranges in E. simpl in E.
    rewrite !orb_false_r in E. apply orb_true_iff in E as [E|E].
    + apply Hd. change (dq + Z.of_nat 0) with dq in E.
      apply (chr_match_exact dq); [unfold dq; lia|done|done|exact E].
    + apply Hs. change (sq + Z.of_nat 0) with sq in E.
      apply (chr_match_exact sq); [unfold sq; lia|done|done|exact E].
  - unfold atom_match, not_quote, quote in *. simpl xorb in *. by rewrite E.
Qed.

(** Greedy repetition over a run of matching characters that ends the
    text or meets a character that does not match. *)
Lemma star_run {R} a (k : str -> option R) cs rest r :
  Forall (fun ch => atom_match a ch = true) cs ->
  match rest with [] => True | x :: _ => atom_match a x = false end ->
  k rest = Some r ->
  star a k (cs ++ rest) = Some r.
Proof.
  intros Hcs Hrest Hk. induction Hcs as [|c cs Hc _ IH]; simpl.
  - destruct rest as [|x rest]; [done|]. simpl. by rewrite Hrest.
  - by rewrite Hc, IH.
Qed.

(** Where the pattern matches at no position of [pre], the scan of
    [pre ++ s] finds what the scan of [s] finds. *)
Lemma findall_from_prefix p pre s :
  (forall pre1 c pre2, pre = pre1 ++ c :: pre2 ->
                       match_at p (c :: pre2 ++ s) = None) ->
  findall_from p 0 (pre ++ s) = findall_from p 0 s.
Proof.
  induction pre as [|c pre IH]; intros H; [done|].
  simpl. rewrite (H [] c pre eq_refl). apply IH.
  intros pre1 c' pre2 ->. by apply (H (c :: pre1)).
Qed.

Lemma findall_head p s g rest :
  match_at p s = Some (g, rest) -> s <> [] -> g ∈ findall p s.
Proof.
  intros H Hs. unfold findall. destruct s as [|c s]; [done|].
  simpl. rewrite H. left.
Qed.

Lemma match_shell_name c cs rest :
  atom_match name_start c = true ->
  Forall (fun ch => atom_match name_char ch = true) cs ->
  name_ends rest = true ->
  exists rest', match_at pat_shell (36 :: (c :: cs) ++ rest)
                = Some (c :: cs, rest').
Proof.
  intros Hc Hcs Hrest. unfold match_at, pat_shell. cbn [before group1 after].
  rewrite <- app_comm_cons. cbn [pieces]. eval_atoms.
  assert (atom_match (Chr 123) c = false) as ->.
  { destruct (atom_match (Chr 123) c) eqn:E; [|done].
    apply (chr_match_exact 123) in E; [|lia|done|done].
    subst c. vm_compute in Hc. discriminate. }
  rewrite Hc.
  assert (exists rest',
    pieces [Opt (Chr 125)] rest
      (fun s3 => Some (slice (c :: cs ++ rest) rest, s3))
    = Some (c :: cs, rest')) as [rest' Hk].
  { change (c :: cs ++ rest) with ((c :: cs) ++ rest). rewrite slice_app.
    cbn [pieces]. destruct rest as [|x rest]; [eauto|].
    destruct (atom_match (Chr 125) x); eauto. }
  exists rest'. apply star_run; [done| |].
  - destruct rest as [|x rest]; [done|]. simpl in Hrest.
    by apply negb_true_iff.
  - cbn [pieces] in *. exact Hk.
Qed.

Lemma match_shell_braced_name c cs rest :
  atom_match name_start c = true ->
  Forall (fun ch => atom_match name_char ch = true) cs ->
  match_at pat_shell (36 :: 123 :: (c :: cs) ++ 125 :: rest)
  = Some (c :: cs, rest).
Proof.
  intros Hc Hcs. unfold match_at, pat_shell. cbn [before group1 after].
  rewrite <- app_comm_cons. cbn [pieces]. eval_atoms. rewrite Hc.
  assert (star name_char
            (fun s' => pieces [Opt (Chr 125)] s'
               (fun s3 => Some (slice (c :: cs ++ 125 :: rest) s', s3)))
            (cs ++ 125 :: rest) = Some (c :: cs, rest)) as Hstar.
  { apply star_run; [done|reflexivity|]. cbn [pieces]. eval_atoms.
    change (c :: cs ++ 125 :: rest) with ((c :: cs) ++ 125 :: rest).
    by rewrite slice_app. }
  cbn [pieces] in Hstar. by rewrite Hstar.
Qed.

Lemma shell_prefix pre s :
  36 ∉ pre ->
  findall_from pat_shell 0 (pre ++ s) = findall_from pat_shell 0 s.
Proof.
  intros Hpre. apply findall_from_prefix. intros pre1 c pre2 ->.
  apply match_shell_not_dollar. intros ->. apply Hpre.
  rewrite elem_of_app. right. left.
Qed.

(** X11: the first dollar sign of a text, when a name follows it, puts
    that name into the match set, in upper or lower case alike: a name is
    a letter or underscore followed by letters, digits and underscores,
    and it ends where the text ends or another character follows.  The
    same holds when the name stands in braces. *)
Theorem dollar_name_found (pre rest : str) (c : Z) (cs : str) :
  36 ∉ pre ->
  atom_match name_start c = true ->
  Forall (fun ch => atom_match name_char ch = true) cs ->
  (name_ends rest = true ->
   c :: cs ∈ extract_variables (pre ++ [36] ++ (c :: cs) ++ rest)) /\
  c :: cs ∈ extract_variables (pre ++ lit "${" ++ (c :: cs) ++ lit "}" ++ rest).
Proof.
  intros Hpre Hc Hcs. split.
  - intros Hrest. apply elem_of_extract_variables. exists pat_shell.
    split; [unfold ENV_PATTERNS; do 2 right; left|].
    unfold findall. rewrite shell_prefix by done.
    destruct (match_shell_name c cs rest Hc Hcs Hrest) as [rest' H].
    by apply (findall_head _ _ _ rest').
  - apply elem_of_extract_variables. exists pat_shell.
    split; [unfold ENV_PATTERNS; do 2 right; left|].
    unfold findall. rewrite shell_prefix by done.
    apply (findall_head _ _ _ rest); [|done].
    by apply match_shell_braced_name.
Qed.

Lemma dollar_name_found_witness :
  100 :: lit "b_url"
    ∈ extract_variables (lit "echo " ++ [36] ++ (100 :: lit "b_url") ++ lit " done") /\
  100 :: lit "b_url"
    ∈ extract_variables
        (lit "echo " ++ lit "${" ++ (100 :: lit "b_url") ++ lit "}" ++ lit " done").
Proof.
  destruct (dollar_name_found (lit "echo ") (lit " done") 100 (lit "b_url"))
    as [H1 H2].
  - change (lit "echo ") with [101; 99; 104; 111; 32].
    rewrite !elem_of_cons, elem_of_nil. intuition discriminate.
  - reflexivity.
  - change (lit "b_url") with [98; 95; 117; 114; 108].
    repeat (apply Forall_cons; split; [reflexivity|]). by apply Forall_nil.
  - split; [apply H1; reflexivity|exact H2].
Defined.

Lemma pieces_One {R} a ps s (k : str -> option R) r :
  pieces (One a :: ps) s k = Some r ->
  exists ch s', s = ch :: s' /\ atom_match a ch = true /\
                pieces ps s' k = Some r.
Proof.
  simpl. destruct s as [|ch s]; [done|].
  destruct (atom_match a ch) eqn:E; [|done]. eauto.
Qed.

(** A match of the first pattern has an opening parenthesis as its tenth
    character. *)
Lemma getenv_needs_paren s g rest :
  match_at pat_getenv s = Some (g, rest) -> nth 9 s 0 = 40.
Proof.
  unfold match_at, pat_getenv. cbn [before].
  change (chars "os.getenv(") with
    [One (Chr 111); One (Chr 115); One (Chr 46); One (Chr 103); One (Chr 101);
     One (Chr 116); One (Chr 101); One (Chr 110); One (Chr 118); One (Chr 40)].
  cbn [app]. intros H.
  do 9 (apply pieces_One in H as (? & ? & -> & _ & H)).
  apply pieces_One in H as (ch & ? & -> & Hch & _).
  simpl. by apply (chr_match_exact 40); [lia|done|done|].
Qed.

Lemma no_paren_before t u : forall n,
  40 ∉ t -> (n < length t + 9)%nat ->
  nth n (t ++ lit "os.getenv" ++ u) 0 <> 40.
Proof.
  change (lit "os.getenv") with [111; 115; 46; 103; 101; 116; 101; 110; 118].
  induction t as [|a t IH]; intros n Ht Hn.
  - simpl in Hn. do 9 (destruct n as [|n]; [simpl; lia|]). lia.
  - apply not_elem_of_cons in Ht as [Ha Ht]. destruct n as [|n]; [done|].
    simpl. apply IH; [done|simpl in Hn; lia].
Qed.

Lemma getenv_prefix pre u :
  40 ∉ pre ->
  findall_from pat_getenv 0 (pre ++ lit "os.getenv" ++ u)
  = findall_from pat_getenv 0 (lit "os.getenv" ++ u).
Proof.
  intros Hpre. apply findall_from_prefix. intros pre1 c pre2 ->.
  destruct (match_at pat_getenv _) as [[g rest]|] eqn:E; [|done].
  apply getenv_needs_paren in E. exfalso.
  rewrite app_comm_cons in E. revert E. apply no_paren_before.
  - intros H. apply Hpre. rewrite elem_of_app. by right.
  - simpl. lia.
Qed.

Lemma match_getenv_call q q' name post :
  q ∈ [dq; sq] -> q' ∈ [dq; sq] ->
  name <> [] -> dq ∉ name -> sq ∉ name ->
  match_at pat_getenv
    (lit "os.getenv(" ++ [q] ++ name ++ [q'] ++ lit ")" ++ post)
  = Some (name, post).
Proof.
  intros Hq Hq' Hne Hd Hs.
  assert (forall x, x ∈ [dq; sq] -> atom_match quote x = true /\
                                    atom_match not_quote x = false) as Hquote.
  { intros x Hx.
    repeat (apply elem_of_cons in Hx as [->|Hx]; [by split|]).
    by apply elem_of_nil in Hx. }
  destruct (Hquote q Hq) as [Hq1 _]. destruct (Hquote q' Hq') as [Hq2 Hq3].
  destruct name as [|c cs]; [done|].
  apply not_elem_of_cons in Hd as [Hcd Hd].
  apply not_elem_of_cons in Hs as [Hcs Hs].
  change (lit "os.getenv(") with
    [111; 115; 46; 103; 101; 116; 101; 110; 118; 40].
  change (lit ")") with [41].
  unfold match_at, pat_getenv. cbn [before group1 after].
  change (chars "os.getenv(") with
    [One (Chr 111); One (Chr 115); One (Chr 46); One (Chr 103); One (Chr 101);
     One (Chr 116); One (Chr 101); One (Chr 110); One (Chr 118); One (Chr 40)].
  cbn [app pieces]. eval_atoms. rewrite Hq1, (not_quote_match c) by done.
  assert (star not_quote
            (fun s'' => pieces [One quote; One (Chr 41)] s''
               (fun s3 => Some (slice (c :: cs ++ q' :: 41 :: post) s'', s3)))
            (cs ++ q' :: 41 :: post) = Some (c :: cs, post)) as Hstar.
  { apply star_run.
    - apply Forall_forall. intros ch Hch. apply not_quote_match.
      + intros ->. by apply Hd.
      + intros ->. by apply Hs.
    - exact Hq3.
    - cbn [pieces]. rewrite Hq2. eval_atoms.
      change (c :: cs ++ q' :: 41 :: post) with ((c :: cs) ++ q' :: 41 :: post).
      by rewrite slice_app. }
  cbn [pieces] in Hstar. exact Hstar.
Qed.

(** X12: a call os.getenv('NAME') that no opening parenthesis precedes in
    the text puts NAME into the match set, whatever follows.  The name may
    be any non-empty text without quote characters, and each of the two
    quotes may be single or double, even one of each. *)
Theorem getenv_call_found (pre name post : str) (q q' : Z) :
  40 ∉ pre ->
  q ∈ [dq; sq] -> q' ∈ [dq; sq] ->
  name <> [] -> dq ∉ name -> sq ∉ name ->
  name ∈ extract_variables
           (pre ++ lit "os.getenv(" ++ [q] ++ name ++ [q'] ++ lit ")" ++ post).
Proof.
  intros Hpre Hq Hq' Hne Hd Hs.
  apply elem_of_extract_variables. exists pat_getenv.
  split; [unfold ENV_PATTERNS; left|]. unfold findall.
  change (lit "os.getenv(") with (lit "os.getenv" ++ [40]).
  rewrite <- (app_assoc (lit "os.getenv")).
  rewrite getenv_prefix by done.
  apply (findall_head _ _ _ post); [|done].
  rewrite (app_assoc (lit "os.getenv")).
  by apply (match_getenv_call q q' name post).
Qed.

Lemma getenv_call_found_witness :
  lit "API_KEY"
    ∈ extract_variables
        (lit "key = " ++ lit "os.getenv(" ++ [dq] ++ lit "API_KEY" ++ [sq] ++
         lit ")" ++ lit " or fail()").
Proof.
  apply (getenv_call_found (lit "key = ") (lit "API_KEY") (lit " or fail()")
           dq sq).
  - change (lit "key = ") with [107; 101; 121; 32; 61; 32].
    rewrite !elem_of_cons, elem_of_nil. intuition discriminate.
  - left.
  - right. left.
  - discriminate.
  - change (lit "API_KEY") with [65; 80; 73; 95; 75; 69; 89]. unfold dq.
    rewrite !elem_of_cons, elem_of_nil. intuition discriminate.
  - change (lit "API_KEY") with [65; 80; 73; 95; 75; 69; 89]. unfold sq.
    rewrite !elem_of_cons, elem_of_nil. intuition discriminate.
Defined.

End Captures.

(* ===================================================================== *)
(** * The environment section and the text that is read *)
(* ===================================================================== *)

Section Environment.

Lemma vars_in_elements (env : gmap str str) (all_env_vars : gset str) l :
  l ≡ₚ elements all_env_vars ->
  vars_in env l ≡ₚ elements (all_env_vars ∩ dom env).
Proof.
  intros Hl. apply NoDup_Permutation.
  - unfold vars_in. apply NoDup_filter. rewrite Hl. apply NoDup_elements.
  - apply NoDup_elements.
  - intros v. unfold vars_in.
    rewrite list_elem_of_filter, Hl, !elem_of_elements, elem_of_intersection.
    rewrite elem_of_dom. tauto.
Qed.

(** X13: the last part of the report in terms of sets: the names marked
    as set are those of the global set that are keys of the environment,
    in ascending order; the section of names that are not set lists the
    others, and it is left out exactly when every name is a key of the
    environment. *)
Theorem environment_section (w : World) (all_env_vars : gset str) :
  valid_order (set_order w) ->
  report_environment all_env_vars w =
  (Done tt,
   write w
     (set_header ++ [10] ++
      lines check_line (sorted (elements (all_env_vars ∩ dom (environ w)))) ++
      (if bool_decide (all_env_vars ⊆ dom (environ w)) then []
       else missing_header ++ [10] ++
            lines cross_line
              (sorted (elements (all_env_vars ∖ dom (environ w))))))).
Proof.
  intros Hord. rewrite report_environment_run. unfold environment_text.
  pose proof (vars_in_elements (environ w) all_env_vars _ (Hord all_env_vars))
    as Hp.
  rewrite (sorted_permutation _ _ Hp).
  assert (all_env_vars ∖ list_to_set (vars_in (environ w) (set_order w all_env_vars))
          = all_env_vars ∖ dom (environ w)) as ->.
  { rewrite (list_to_set_perm_L _ _ Hp), list_to_set_elements_L.
    apply set_eq. intros v.
    rewrite !elem_of_difference, elem_of_intersection. tauto. }
  rewrite (sorted_permutation _ _ (Hord _)).
  destruct (decide (all_env_vars ⊆ dom (environ w))) as [Hsub|Hsub].
  - rewrite (bool_decide_eq_true_2 (_ ⊆ _)) by done.
    rewrite bool_decide_eq_false_2; [done|]. intros H. apply H.
    apply set_eq. intros v. rewrite elem_of_difference, elem_of_empty.
    split; [|done]. intros [Hv Hn]. by apply Hn, Hsub.
  - rewrite (bool_decide_eq_false_2 (_ ⊆ _)) by done.
    rewrite bool_decide_eq_true_2; [done|]. intros H. apply Hsub.
    intros v Hv. destruct (decide (v ∈ dom (environ w))) as [|Hn]; [done|].
    assert (v ∈ all_env_vars ∖ dom (environ w)) as Hin
      by (by apply elem_of_difference).
    rewrite H in Hin. by apply elem_of_empty in Hin.
Qed.

Lemma environment_section_witness :
  report_environment mixed_case_vars world_project =
  (Done tt,
   write world_project
     (set_header ++ [10] ++
      lines check_line
        (sorted (elements (mixed_case_vars ∩ dom (environ world_project)))) ++
      (if bool_decide (mixed_case_vars ⊆ dom (environ world_project)) then []
       else missing_header ++ [10] ++
            lines cross_line
              (sorted (elements (mixed_case_vars ∖ dom (environ world_project))))))).
Proof.
  apply (environment_section world_project mixed_case_vars).
  intros X. reflexivity.
Defined.

Lemma decode_strict_ascii data :
  Forall (fun b => 0 <= b <= 127) data -> Utf8.decode_strict data = Some data.
Proof.
  induction 1 as [|b data Hb _ IH]; [done|].
  cbn [Utf8.decode_strict]. unfold Utf8.between.
  destruct (Z.leb_spec 0 b), (Z.leb_spec b 0x7F); try lia.
  simpl. by rewrite IH.
Qed.

Lemma universal_newlines_no_cr s : 13 ∉ s -> universal_newlines s = s.
Proof.
  induction s as [|c s IH]; [done|]. intros H.
  apply not_elem_of_cons in H as [Hc Hs]. simpl.
  destruct (Z.eqb_spec c 13); [done|]. by rewrite IH.
Qed.

(** X14: the lenient decoding changes nothing for files that are what
    they should be: a file whose bytes are UTF-8 is scanned as the text a
    strict decoder gives (with its line ends turned into line feeds), and
    a file of ASCII bytes without carriage return is scanned as its very
    bytes. *)
Theorem utf8_file_read_as_is (data : list Z) (w : World) :
  (forall text, Utf8.decode_strict data = Some text ->
     find_env_vars_in_file (Regular (ReadBytes data)) w
     = (Done (extract_variables (universal_newlines text)), w)) /\
  (Forall (fun b => 0 <= b <= 127) data -> 13 ∉ data ->
     find_env_vars_in_file (Regular (ReadBytes data)) w
     = (Done (extract_variables data), w)).
Proof.
  assert (forall text, Utf8.decode_strict data = Some text ->
     find_env_vars_in_file (Regular (ReadBytes data)) w
     = (Done (extract_variables (universal_newlines text)), w)) as Hstrict.
  { intros text H. rewrite find_env_vars_in_file_run. simpl.
    by rewrite (decode_ignore_strict data text H). }
  split; [done|]. intros Hascii Hcr.
  rewrite (Hstrict data (decode_strict_ascii data Hascii)).
  by rewrite universal_newlines_no_cr.
Qed.

Lemma utf8_file_read_as_is_witness :
  find_env_vars_in_file (Regular (ReadBytes [36; 0xC3; 0xA9; 13; 10; 36; 65]))
                        world_project
  = (Done (extract_variables (universal_newlines [36; 0xE9; 13; 10; 36; 65])),
     world_project) /\
  find_env_vars_in_file (Regular (ReadBytes [36; 72; 79; 77; 69])) world_project
  = (Done (extract_variables [36; 72; 79; 77; 69]), world_project).
Proof.
  destruct (utf8_file_read_as_is [36; 0xC3; 0xA9; 13; 10; 36; 65] world_project)
    as [H1 _].
  destruct (utf8_file_read_as_is [36; 72; 79; 77; 69] world_project)
    as [_ H2].
  split.
  - apply H1. reflexivity.
  - apply H2.
    + repeat (apply Forall_cons; split; [lia|]). by apply Forall_nil.
    + rewrite !elem_of_cons, elem_of_nil. intuition discriminate.
Defined.

End Environment.

(* ===================================================================== *)
(** * The names of [skip_dirs] as substrings *)
(* ===================================================================== *)

Section SkipNames.

Lemma contains_trans a b c :
  contains a b = true -> contains b c = true -> contains a c = true.
Proof.
  rewrite !contains_spec. intros (p1 & q1 & ->) (p2 & q2 & ->).
  exists (p2 ++ p1), (q1 ++ q2). by rewrite <- !app_assoc.
Qed.

Lemma needle_in_joinpath needle target rel :
  contains needle [Pathlib.dot] = false ->
  contains needle (Pathlib.to_str target) = true ->
  contains needle (Pathlib.to_str (Pathlib.joinpath target rel)) = true.
Proof.
  intros Hdot. destruct target as [r ns].
  unfold Pathlib.to_str, Pathlib.joinpath. cbn [Pathlib.root Pathlib.names].
  destruct (join_app_prefix [Pathlib.slash] ns rel) as [t Ht].
  assert (contains needle (r ++ join [Pathlib.slash] ns) = true ->
          contains needle (r ++ join [Pathlib.slash] (ns ++ rel)) = true)
    as Hin.
  { intros H. rewrite Ht, app_assoc. by apply contains_app_l. }
  destruct r as [|c r], ns as [|n ns]; try done.
  intros H. rewrite H in Hdot. done.
Qed.

(** X15: the names of [skip_dirs] act as substrings of the whole path
    string, for every name as for env: an entry for which [is_file()]
    returns and whose path string contains one of them anywhere (ci.yml
    below .github, which contains .git) is passed over, and so is every
    entry below a target whose path string contains one, when [is_file()]
    returns for all of them.  The names venv and .venv add nothing to
    env: the test is equivalent to the test for the other four names
    alone. *)
Theorem skip_names_are_substrings (target : Path) (d : dirent)
    (st : scan_state) (w : World) (skip : str) :
  skip ∈ skip_dirs ->
  let filepath := Pathlib.joinpath target d.1 in
  (d.2 <> Unreachable ->
   contains skip (Pathlib.to_str filepath) = true ->
     scan_entry target d st w = (Done st, w)) /\
  (contains skip (Pathlib.to_str target) = true ->
   Forall (fun d' : dirent => d'.2 <> Unreachable) (listing_of w target) ->
     scan target w = (Done (∅, ∅), w)) /\
  (skipped filepath = true <->
     exists s, s ∈ [lit "__pycache__"; lit ".git"; lit "node_modules"; lit "env"]
               /\ contains s (Pathlib.to_str filepath) = true).
Proof.
  intros Hskip filepath.
  assert (forall p, contains skip (Pathlib.to_str p) = true -> skipped p = true)
    as Hs.
  { intros p H. unfold skipped. apply existsb_exists. exists skip.
    split; [by apply list_elem_of_In|done]. }
  split; [|split].
  - intros Hu H. apply not_candidate_unchanged; [done|].
    unfold candidate. fold filepath.
    by rewrite (Hs _ H), andb_false_r.
  - intros H Hu. rewrite scan_run. rewrite scan_steps_all_skipped; [done|done|].
    intros d' _. unfold candidate. rewrite (Hs (Pathlib.joinpath target d'.1)).
    + by rewrite andb_false_r.
    + apply needle_in_joinpath; [|done]. unfold skip_dirs in Hskip.
      repeat (apply elem_of_cons in Hskip as [->|Hskip]; [reflexivity|]).
      by apply elem_of_nil in Hskip.
  - unfold skipped. rewrite existsb_exists. split.
    + intros (s & Hin & Hc). apply list_elem_of_In in Hin.
      unfold skip_dirs in Hin. rewrite !elem_of_cons, elem_of_nil in Hin.
      destruct Hin as [->|[->|[->|[->|[->|[->|[]]]]]]].
      * exists (lit "__pycache__"). split; [left|done].
      * exists (lit ".git"). split; [right; left|done].
      * exists (lit "node_modules"). split; [do 2 right; left|done].
      * exists (lit "env"). split; [do 3 right; left|].
        by apply (contains_trans _ (lit "venv")).
      * exists (lit "env"). split; [do 3 right; left|].
        by apply (contains_trans _ (lit ".venv")).
      * exists (lit "env"). split; [do 3 right; left|done].
    + intros (s & Hin & Hc). exists s. split; [|done].
      apply list_elem_of_In. unfold skip_dirs.
      rewrite !elem_of_cons, elem_of_nil in Hin. rewrite !elem_of_cons.
      destruct Hin as [->|[->|[->|[->|[]]]]]; tauto.
Qed.

Lemma skip_names_are_substrings_witness :
  scan_entry (target_of world_project) workflow_entry (∅, ∅) world_project
  = (Done (∅, ∅), world_project).
Proof.
  destruct (skip_names_are_substrings (target_of world_project) workflow_entry
              (∅, ∅) world_project (lit ".git")) as [H _].
  - unfold skip_dirs. right. left.
  - apply H; [discriminate | reflexivity].
Defined.

End SkipNames.

(* ===================================================================== *)
(** * The cross-reference with the environment *)
(* ===================================================================== *)

Section CrossReference.

Lemma elem_of_sorted v l : v ∈ sorted l <-> v ∈ l.
Proof. unfold sorted. by rewrite merge_sort_Permutation. Qed.

Lemma NoDup_sorted l : NoDup l -> NoDup (sorted l).
Proof. unfold sorted. by rewrite merge_sort_Permutation. Qed.

Lemma sorted_nil_iff l : sorted l = [] <-> l = [].
Proof.
  split; [|by intros ->]. intros H. apply Permutation_nil_r.
  rewrite <- H. unfold sorted. by rewrite merge_sort_Permutation.
Qed.

(** C6: the last part of the report marks as set the names of one list
    and as missing the names of another, the section of missing names
    being left out when there is none.  A name of the global set is in
    the first list exactly when the very same name is a key of the
    environment, and in the second exactly when it is not; no name is in
    both, every name of the global set is in one of them, and neither
    list names anything twice. *)
Theorem set_and_missing_partition (w : World) (all_env_vars : gset str) :
  valid_order (set_order w) ->
  exists set_vars missing : list str,
    report_environment all_env_vars w =
      (Done tt,
       write w (set_header ++ [10] ++ lines check_line set_vars ++
                (if bool_decide (missing = []) then []
                 else missing_header ++ [10] ++ lines cross_line missing))) /\
    (forall v, v ∈ set_vars <-> v ∈ all_env_vars /\ is_Some (environ w !! v)) /\
    (forall v, v ∈ missing <-> v ∈ all_env_vars /\ environ w !! v = None) /\
    (forall v, v ∈ set_vars -> v ∉ missing) /\
    (forall v, v ∈ all_env_vars <-> v ∈ set_vars \/ v ∈ missing) /\
    NoDup set_vars /\ NoDup missing.
Proof.
  intros Hord.
  set (sv := vars_in (environ w) (set_order w all_env_vars)).
  set (ms := all_env_vars ∖ list_to_set sv).
  assert (forall v, v ∈ sorted sv <->
                    v ∈ all_env_vars /\ is_Some (environ w !! v)) as Hset.
  { intros v. rewrite elem_of_sorted. unfold sv, vars_in.
    rewrite list_elem_of_filter, (Hord all_env_vars), elem_of_elements.
    tauto. }
  assert (forall v, v ∈ sorted (set_order w ms) <->
                    v ∈ all_env_vars /\ environ w !! v = None) as Hmiss.
  { intros v. rewrite elem_of_sorted, (Hord ms), elem_of_elements.
    unfold ms. rewrite elem_of_difference, elem_of_list_to_set.
    rewrite <- (elem_of_sorted v sv), Hset, <- not_eq_None_Some.
    destruct (environ w !! v); split; intros []; split; try done.
    - exfalso. auto.
    - tauto. }
  exists (sorted sv), (sorted (set_order w ms)).
  split; [|split; [done|split; [done|split; [|split; [|split]]]]].
  - rewrite report_environment_run. unfold environment_text. fold sv ms.
    do 4 f_equal. destruct (decide (ms = ∅)) as [He|Hne].
    + rewrite bool_decide_eq_false_2 by (intros H; by apply H).
      rewrite bool_decide_eq_true_2; [done|]. apply sorted_nil_iff.
      apply Permutation_nil_r. by rewrite (Hord ms), He, elements_empty.
    + rewrite bool_decide_eq_true_2 by done.
      rewrite bool_decide_eq_false_2; [done|]. intros H.
      apply (proj1 (sorted_nil_iff _)) in H.
      apply Hne, leibniz_equiv, elements_empty_inv, Permutation_nil_r.
      by rewrite <- (Hord ms), H.
  - intros v Hv Hm. apply Hset in Hv as [_ Hv]. apply Hmiss in Hm as [_ Hm].
    rewrite Hm in Hv. by destruct Hv.
  - intros v. rewrite Hset, Hmiss.
    destruct (environ w !! v) eqn:E; [|tauto].
    split; [|tauto]. intros ?. left. eauto.
  - apply NoDup_sorted. unfold sv, vars_in. apply NoDup_filter.
    rewrite (Hord all_env_vars). apply NoDup_elements.
  - apply NoDup_sorted. rewrite (Hord ms). apply NoDup_elements.
Qed.

End CrossReference.

Lemma set_and_missing_partition_witness :
  exists set_vars missing : list str,
    report_environment mixed_case_vars world_project =
      (Done tt,
       write world_project
         (set_header ++ [10] ++ lines check_line set_vars ++
          (if bool_decide (missing = []) then []
           else missing_header ++ [10] ++ lines cross_line missing))) /\
    lit "PATH" ∈ set_vars /\ lit "path" ∈ missing /\ lit "HOME" ∈ missing.
Proof.
  destruct (set_and_missing_partition world_project mixed_case_vars)
    as (set_vars & missing & Hrun & Hset & Hmiss & _).
  - intros X. reflexivity.
  - exists set_vars, missing. split; [exact Hrun|].
    split; [apply Hset|split; apply Hmiss]; split;
      vm_compute; (reflexivity || eauto).
Defined.

(* ===================================================================== *)
(** * What a run leaves behind *)
(* ===================================================================== *)

Section Effects.

(** The loop comes to its end exactly when [is_file()] returns for every
    entry and every file handed to [find_env_vars_in_file] can be read or
    fails with PermissionError; otherwise it ends in an OSError. *)
Lemma scan_steps_outcome order target listing : forall st,
  (readable target listing /\
   exists st', scan_steps order target listing st = Done st') \/
  (~ readable target listing /\
   scan_steps order target listing st = Raise OSError).
Proof.
  unfold readable. induction listing as [|d l IH]; intros st.
  { left. split; [by apply Forall_nil|by eexists]. }
  cbn [scan_steps]. rewrite entry_step_alt.
  destruct (entry_found_raises target d) as [[f Hf]|Hf].
  - rewrite Hf.
    assert (d.2 <> Unreachable /\
            (candidate target d = true -> d.2 <> Regular ReadOSError))
      as Hd.
    { unfold entry_found in Hf. split.
      - intros Hu. by rewrite Hu in Hf.
      - intros Hc Hr. by rewrite Hc, Hr in Hf. }
    destruct (IH (add_found order d f st)) as [[Hl Hs]|[Hl Hs]].
    + left. split; [by apply Forall_cons|done].
    + right. split; [|done]. intros H. apply Hl.
      by apply Forall_cons in H as [_ H].
  - rewrite Hf. right. split; [|done]. intros H.
    apply Forall_cons in H as [[Hu Hr] _].
    destruct (entry_step_readable order target d st Hu Hr) as [st' Hst'].
    rewrite entry_step_alt, Hf in Hst'. done.
Qed.


(** X16: the two tests on paths are outside every handler: when
    [exists()] raises for the target (a name that is too long, a
    directory on the way that cannot be searched), or [is_file()] raises
    for an entry (a file in a directory that can be listed but not
    searched), be it one that would have been passed over, the exception
    leaves [main]: the run prints nothing, neither diagnostic nor report,
    the process exits with status 1 and the interpreter writes a
    traceback to standard error. *)
Theorem stat_error_aborts (w : World) :
  (2 <= length (argv w))%nat ->
  fs w !! Pathlib.to_str (target_of w) = Some Inaccessible \/
  (exists d, d ∈ listing_of w (target_of w) /\ d.2 = Unreachable) ->
  main w = (Raise OSError, w) /\ run w = (1, w) /\
  process w = (1, report_exception w OSError).
Proof.
  intros Hlen H.
  assert (main w = (Raise OSError, w)) as Hmain.
  { rewrite main_with_argument by done. destruct H as [-> | (d & Hin & Hd)].
    { done. }
    assert (scan_and_report w = (Raise OSError, w)) as Hs.
    { unfold scan_and_report.
      destruct (scan_steps_outcome (set_order w) (target_of w)
                  (listing_of w (target_of w)) (∅, ∅))
        as [[Hr _]|[_ ->]]; [|done].
      unfold readable in Hr. rewrite Forall_forall in Hr.
      by destruct (Hr d Hin) as [Hu _]. }
    unfold listing_of in Hin.
    destruct (fs w !! Pathlib.to_str (target_of w)) as [[l| |]|]; [done|..];
      by apply elem_of_nil in Hin. }
  unfold process, run. by rewrite Hmain.
Qed.

Lemma stat_error_aborts_witness :
  (main world_inaccessible = (Raise OSError, world_inaccessible) /\
   run world_inaccessible = (1, world_inaccessible) /\
   process world_inaccessible
   = (1, report_exception world_inaccessible OSError)) /\
  (main world_unsearchable = (Raise OSError, world_unsearchable) /\
   run world_unsearchable = (1, world_unsearchable) /\
   process world_unsearchable
   = (1, report_exception world_unsearchable OSError)).
Proof.
  split.
  - apply (stat_error_aborts world_inaccessible); [simpl; lia|].
    left. reflexivity.
  - apply (stat_error_aborts world_unsearchable); [simpl; lia|].
    right. exists unsearchable_entry. split; [|reflexivity].
    vm_compute. do 2 right. left.
Defined.



End Effects.
